(** * The Ising lattice update kernel of [CythonIsingModel.ipynb]

    A shallow embedding of the two implementations of the Metropolis
    checkerboard sweep found in the notebook: the pure Python pair
    [ising_step] / [_ising_update] and the Cython pair [cy_ising_step] /
    [_cy_ising_update].

    The lattice is a NumPy array of [int64]: the code mutates it through a
    reference, so the embedding runs in a small state-and-error monad over
    a store of arrays and the two random sources the code draws from.

    The file has three parts: the embedding of the code; what a call, a
    pass and a step compute, as functions on the array and the generator,
    with the proofs that the embedded code computes exactly that; and the
    properties of the kernel proved from there. *)

From Stdlib Require Import ZArith Lia SpecFloat.
From stdpp Require Import base option list list_numbers sorting gmap.

Local Open Scope Z_scope.

(** ** Fixed-width integers *)

(** Two's complement wrap-around of a [w]-bit signed integer. *)
Definition wrap (w : Z) (x : Z) : Z := (x + 2 ^ (w - 1)) mod 2 ^ w - 2 ^ (w - 1).

(** [np.int64] scalars and the cells of an [np.int64_t[:, :]] view. *)
Definition int64 : Z -> Z := wrap 64.
(** A C [int] (the [cdef int] variables of the Cython cell). *)
Definition int32 : Z -> Z := wrap 32.

(** ** Floating point *)

(** IEEE binary64 ([np.float64], Python [float], C [double]) and binary32
    (C [float]) over [spec_float]. *)
Definition double_of_int (z : Z) : spec_float := binary_normalize 53 1024 z 0 false.
Definition float_of_int (z : Z) : spec_float := binary_normalize 24 128 z 0 false.
Definition double_mul : spec_float -> spec_float -> spec_float := SFmul 53 1024.
Definition float_mul : spec_float -> spec_float -> spec_float := SFmul 24 128.

(** Widening of a C [float] to [double] (exact). *)
Definition double_of_float (x : spec_float) : spec_float :=
  match x with
  | S754_finite s m e => binary_normalize 53 1024 (cond_Zopp s (Zpos m)) e s
  | _ => x
  end.

(** The exact value of a float when that value is an integer ([None] for
    fractions, infinities and NaN). *)
Definition SF2Z (x : spec_float) : option Z :=
  match x with
  | S754_zero _ => Some 0
  | S754_finite s m e =>
      if 0 <=? e then Some (cond_Zopp s (Zpos m * 2 ^ e))
      else if Zpos m mod 2 ^ (- e) =? 0 then Some (cond_Zopp s (Zpos m / 2 ^ (- e)))
      else None
  | _ => None
  end.

(** What the code takes from its libraries and platform: the exponential
    of NumPy and of libc, and the constant [RAND_MAX]. *)
Class Platform := {
  np_exp : spec_float -> spec_float;
  libc_exp : spec_float -> spec_float;
  RAND_MAX : Z
}.

(** ** Arrays, random sources and the store *)

(** A two-dimensional C-contiguous [int64] array: [field.shape] and the
    row-major buffer. *)
Record ndarray := NDArray { shape0 : Z; shape1 : Z; data : list Z }.

(** A random source: the sequence of samples it will deliver and how many
    of them have been drawn so far. *)
Record rng (A : Type) := Rng { samples : nat -> A; drawn : nat }.
Arguments Rng {A} _ _.
Arguments samples {A} _ _.
Arguments drawn {A} _.

Definition draw {A} (r : rng A) : A * rng A :=
  (samples r (drawn r), Rng (samples r) (S (drawn r))).

Abbreviation loc := positive.

(** The store: array buffers by reference, the global generator behind
    [np.random.rand] and the one behind libc's [rand]. *)
Record state := State {
  heap : gmap loc ndarray;
  np_random : rng spec_float;
  libc_rand : rng Z
}.

Definition set_heap (h : gmap loc ndarray) (s : state) : state :=
  State h (np_random s) (libc_rand s).
Definition set_np_random (r : rng spec_float) (s : state) : state :=
  State (heap s) r (libc_rand s).
Definition set_libc_rand (r : rng Z) (s : state) : state :=
  State (heap s) (np_random s) r.

(** ** The monad: state passing, [None] for a raised exception *)

Definition Comp (A : Type) : Type := state -> option (A * state).

Definition ret {A} (x : A) : Comp A := fun s => Some (x, s).
Definition bind {A B} (m : Comp A) (k : A -> Comp B) : Comp B :=
  fun s => match m s with Some (x, s') => k x s' | None => None end.
Definition raise {A} : Comp A := fun _ => None.

Declare Scope kernel_scope.
Delimit Scope kernel_scope with kernel.
Notation "'let*' x ':=' m 'in' k" := (bind m (fun x => k))
  (at level 10, x name, m at level 100, k at level 200) : kernel_scope.
Notation "'let*' ' p ':=' m 'in' k" := (bind m (fun x => match x with p => k end))
  (at level 10, p pattern, m at level 100, k at level 200) : kernel_scope.
Notation "m ';;;' k" := (bind m (fun _ => k))
  (at level 100, k at level 200, right associativity) : kernel_scope.
Local Open Scope kernel_scope.

(** [for x in xs: body(x)] *)
Fixpoint for_ {A} (xs : list A) (body : A -> Comp unit) : Comp unit :=
  match xs with
  | [] => ret tt
  | x :: xs' => body x ;;; for_ xs' body
  end.

(** A [for] loop that updates one local variable. *)
Fixpoint for_acc {A S} (xs : list A) (acc : S) (body : S -> A -> Comp S) : Comp S :=
  match xs with
  | [] => ret acc
  | x :: xs' => let* acc' := body acc x in for_acc xs' acc' body
  end.

(** [range(start, stop)] and [range(start, stop, step)] for [step > 0]. *)
Definition range (start stop : Z) : list Z := seqZ start (stop - start).
Definition range_step (start stop step : Z) : list Z :=
  (fun k => start + k * step) <$> seqZ 0 ((stop - start + step - 1) `div` step).

(** ** Array primitives *)

(** [field.shape] *)
Definition shape (field : loc) : Comp (Z * Z) :=
  fun s => match heap s !! field with
           | Some a => Some ((shape0 a, shape1 a), s)
           | None => None
           end.

(** NumPy index normalisation along one axis: negative indices count from
    the end, anything outside [-dim, dim) raises [IndexError]. *)
Definition norm_index (i dim : Z) : option Z :=
  if (0 <=? i) && (i <? dim) then Some i
  else if (- dim <=? i) && (i <? 0) then Some (i + dim)
  else None.

(** Position of cell [(i, j)] in the row-major buffer. *)
Definition offset (a : ndarray) (i j : Z) : nat := Z.to_nat (i * shape1 a + j).

(** [field[i, j]] *)
Definition getitem (field : loc) (i j : Z) : Comp Z :=
  fun s => a ← heap s !! field;
           i' ← norm_index i (shape0 a);
           j' ← norm_index j (shape1 a);
           v ← data a !! offset a i' j';
           Some (v, s).

(** [field[i, j] = v] *)
Definition setitem (field : loc) (i j v : Z) : Comp unit :=
  fun s => a ← heap s !! field;
           i' ← norm_index i (shape0 a);
           j' ← norm_index j (shape1 a);
           _ ← data a !! offset a i' j';
           Some (tt, set_heap (<[field := NDArray (shape0 a) (shape1 a)
                                            (<[offset a i' j' := v]> (data a))]> (heap s)) s).

(** Indexing of a typed memoryview under [boundscheck(False)] and
    [wraparound(False)]: no normalisation; an index outside the buffer has
    no defined behaviour and is left undefined here. *)
Definition raw_index (i dim : Z) : option Z :=
  if (0 <=? i) && (i <? dim) then Some i else None.

Definition view_get (field : loc) (i j : Z) : Comp Z :=
  fun s => a ← heap s !! field;
           i' ← raw_index i (shape0 a);
           j' ← raw_index j (shape1 a);
           v ← data a !! offset a i' j';
           Some (v, s).

Definition view_set (field : loc) (i j v : Z) : Comp unit :=
  fun s => a ← heap s !! field;
           i' ← raw_index i (shape0 a);
           j' ← raw_index j (shape1 a);
           _ ← data a !! offset a i' j';
           Some (tt, set_heap (<[field := NDArray (shape0 a) (shape1 a)
                                            (<[offset a i' j' := v]> (data a))]> (heap s)) s).

(** [np.array(field)]: a newly allocated array with a copy of the buffer. *)
Definition np_array (field : loc) : Comp loc :=
  fun s => a ← heap s !! field;
           let l := fresh (dom (heap s)) in
           Some (l, set_heap (<[l := a]> (heap s)) s).

(** [a % b] with Python semantics (the sign of the divisor;
    [ZeroDivisionError] for [b = 0]).  Cython keeps it for C integers, as
    the cell does not turn on [cdivision]. *)
Definition py_mod (a b : Z) : Comp Z :=
  if b =? 0 then raise else ret (a mod b).

(** [np.random.rand()] *)
Definition np_random_rand : Comp spec_float :=
  fun s => let (x, r) := draw (np_random s) in Some (x, set_np_random r s).

(** libc [rand()] *)
Definition rand : Comp Z :=
  fun s => let (x, r) := draw (libc_rand s) in Some (x, set_libc_rand r s).

(** ** The Python kernel *)

Section Kernel.
Context `{Platform}.

(** Lines 185-191 of [_ising_update]: the accumulation of [total]. *)
Definition neighbor_total (field : loc) (n m : Z) : Comp Z :=
  let total := 0 in
  let* '(N, M) := shape field in
  for_acc (range (n - 1) (n + 2)) total (fun total i =>
    for_acc (range (m - 1) (m + 2)) total (fun total j =>
      if (i =? n) && (j =? m) then ret total
      else
        let* i' := py_mod i N in
        let* j' := py_mod j M in
        let* x := getitem field i' j' in
        ret (int64 (total + x)))).

(** Line 192: [dE = 2 * field[n, m] * total]. *)
Definition local_dE (field : loc) (n m : Z) : Comp Z :=
  let* total := neighbor_total field n m in
  let* c := getitem field n m in
  ret (int64 (int64 (2 * c) * total)).

(** [field[n, m] *= -1] *)
Definition flip (field : loc) (n m : Z) : Comp unit :=
  let* c := getitem field n m in
  setitem field n m (int64 (c * -1)).

Definition _ising_update (field : loc) (n m : Z) (beta : spec_float) : Comp unit :=
  let* dE := local_dE field n m in
  if dE <=? 0 then
    flip field n m
  else
    let p := np_exp (double_mul (double_of_int (int64 (- dE))) beta) in
    let* u := np_random_rand in
    if SFltb u p then flip field n m else ret tt.

(** The two inner loops of [ising_step]: the pass over one parity class. *)
Definition sublattice_pass (field : loc) (N M n_offset m_offset : Z)
    (beta : spec_float) : Comp unit :=
  for_ (range_step n_offset N 2) (fun n =>
    for_ (range_step m_offset M 2) (fun m =>
      _ising_update field n m beta)).

Definition ising_step (field : loc) (beta : spec_float) : Comp loc :=
  let* '(N, M) := shape field in
  for_ (range 0 2) (fun n_offset =>
    for_ (range 0 2) (fun m_offset =>
      sublattice_pass field N M n_offset m_offset beta)) ;;;
  ret field.

(** ** The Cython kernel *)

(** Conversions to a C integer type and overflow of C integer arithmetic
    are two's complement wrap-around. *)

(** Lines 304-312 of [_cy_ising_update]: [total], [N] and [M] are C
    [int]s; the cells are [int64]. *)
Definition cy_neighbor_total (field : loc) (n m : Z) : Comp Z :=
  let total := 0 in
  let* '(shape_0, shape_1) := shape field in
  let N := int32 shape_0 in
  let M := int32 shape_1 in
  for_acc (range (n - 1) (n + 2)) total (fun total i =>
    for_acc (range (m - 1) (m + 2)) total (fun total j =>
      if (i =? n) && (j =? m) then ret total
      else
        let* i' := py_mod i N in
        let* j' := py_mod j M in
        let* x := view_get field i' j' in
        ret (int32 (int64 (total + x))))).

(** Line 313: [cdef float dE = 2 * field[n, m] * total], the [int64]
    product rounded to binary32. *)
Definition cy_local_dE (field : loc) (n m : Z) : Comp spec_float :=
  let* total := cy_neighbor_total field n m in
  let* c := view_get field n m in
  ret (float_of_int (int64 (int64 (2 * c) * total))).

Definition cy_flip (field : loc) (n m : Z) : Comp unit :=
  let* c := view_get field n m in
  view_set field n m (int64 (c * -1)).

Definition _cy_ising_update (field : loc) (n m : Z) (beta : spec_float) : Comp unit :=
  let* dE := cy_local_dE field n m in
  if SFleb dE (float_of_int 0) then
    cy_flip field n m
  else
    let p := double_mul (libc_exp (double_of_float (float_mul (SFopp dE) beta)))
                        (double_of_int RAND_MAX) in
    let* r := rand in
    if SFltb (double_of_int r) p then cy_flip field n m else ret tt.

Definition cy_sublattice_pass (field : loc) (N M n_offset m_offset : Z)
    (beta : spec_float) : Comp unit :=
  for_ (range_step n_offset N 2) (fun n =>
    for_ (range_step m_offset M 2) (fun m =>
      _cy_ising_update field n m beta)).

Definition cy_ising_step (field : loc) (beta : spec_float) : Comp loc :=
  let* '(shape_0, shape_1) := shape field in
  let N := int32 shape_0 in
  let M := int32 shape_1 in
  for_ (range 0 2) (fun n_offset =>
    for_ (range 0 2) (fun m_offset =>
      cy_sublattice_pass field N M n_offset m_offset beta)) ;;;
  np_array field.

(** A run of [K] steps: [K] sequential calls, each on the lattice the
    previous one returned. *)
Fixpoint ising_run (K : nat) (field : loc) (beta : spec_float) : Comp loc :=
  match K with
  | O => ret field
  | S K' => let* field' := ising_step field beta in ising_run K' field' beta
  end.

(** A run of [K] steps of the Cython kernel, each on the array the
    previous one returned. *)
Fixpoint cy_ising_run (K : nat) (field : loc) (beta : spec_float) : Comp loc :=
  match K with
  | O => ret field
  | S K' => let* field' := cy_ising_step field beta in cy_ising_run K' field' beta
  end.

End Kernel.

(** ** The lattice as a value *)

(** A well-shaped array: non-negative dimensions and a buffer of
    [shape0 * shape1] cells. *)
Definition valid (a : ndarray) : Prop :=
  0 <= shape0 a /\ 0 <= shape1 a /\
  length (data a) = Z.to_nat (shape0 a * shape1 a).

(** Every cell is a spin. *)
Definition spins (a : ndarray) : Prop :=
  Forall (fun c => c = -1 \/ c = 1) (data a).

(** A well-formed lattice. *)
Definition lattice (a : ndarray) : Prop := valid a /\ spins a.

(** A site of the array. *)
Definition site (a : ndarray) (n m : Z) : Prop :=
  0 <= n < shape0 a /\ 0 <= m < shape1 a.

#[global] Instance valid_dec a : Decision (valid a).
Proof. unfold valid. apply _. Defined.
#[global] Instance spins_dec a : Decision (spins a).
Proof. unfold spins. apply _. Defined.
#[global] Instance lattice_dec a : Decision (lattice a).
Proof. unfold lattice. apply _. Defined.
#[global] Instance site_dec a n m : Decision (site a n m).
Proof. unfold site. apply _. Defined.

(** The cell at [(i, j)], for [0 <= i < shape0] and [0 <= j < shape1]. *)
Definition cell (a : ndarray) (i j : Z) : Z :=
  default 0 (data a !! offset a i j).

(** The array with cell [(i, j)] set to [v]. *)
Definition with_cell (a : ndarray) (i j v : Z) : ndarray :=
  NDArray (shape0 a) (shape1 a) (<[offset a i j := v]> (data a)).

(** The eight index pairs the double loop of the evaluator reaches, before
    the modulo, in the order it reaches them. *)
Definition neighbor_offsets (n m : Z) : list (Z * Z) :=
  [(n - 1, m - 1); (n - 1, m); (n - 1, m + 1);
   (n, m - 1); (n, m + 1);
   (n + 1, m - 1); (n + 1, m); (n + 1, m + 1)].

(** The cells these index pairs select after the modulo. *)
Definition neighbors (N M n m : Z) : list (Z * Z) :=
  (fun p => (p.1 mod N, p.2 mod M)) <$> neighbor_offsets n m.

(** The value of [total] after the loop, on array [a]. *)
Definition total_of (a : ndarray) (n m : Z) : Z :=
  foldl (fun t p => int64 (t + cell a p.1 p.2)) 0
        (neighbors (shape0 a) (shape1 a) n m).

(** The value of [dE] on array [a]. *)
Definition dE_of (a : ndarray) (n m : Z) : Z :=
  int64 (int64 (2 * cell a n m) * total_of a n m).

(** The array after [field[n, m] *= -1]. *)
Definition flipped (a : ndarray) (n m : Z) : ndarray :=
  with_cell a n m (int64 (cell a n m * -1)).

(** The sites of an [N] by [M] lattice in row-major order. *)
Definition row_major (N M : Z) : list (Z * Z) :=
  n ← seqZ 0 N; m ← seqZ 0 M; [(n, m)].

(** The parity class of a site. *)
Definition parity (p : Z * Z) : Z * Z := (p.1 mod 2, p.2 mod 2).

(** The sites one pass of the two inner loops of the step visits, in the
    order it visits them. *)
Definition pass_sites (N M n_offset m_offset : Z) : list (Z * Z) :=
  n ← range_step n_offset N 2; m ← range_step m_offset M 2; [(n, m)].

(** The sites one step visits, in the order it visits them. *)
Definition step_sites (N M : Z) : list (Z * Z) :=
  n_offset ← range 0 2; m_offset ← range 0 2; pass_sites N M n_offset m_offset.

(** ** What one evaluator call and one sweep compute *)

Section Denotation.
Context `{Platform}.

(** The acceptance test of the [elif] of [_ising_update] for sample [u]. *)
Definition accepts (dE : Z) (beta u : spec_float) : bool :=
  SFltb u (np_exp (double_mul (double_of_int (int64 (- dE))) beta)).

(** The effect of one call of [_ising_update] on the array and on the
    generator of [np.random]. *)
Definition metropolis (a : ndarray) (n m : Z) (beta : spec_float)
    (r : rng spec_float) : ndarray * rng spec_float :=
  let dE := dE_of a n m in
  if dE <=? 0 then (flipped a n m, r)
  else
    let (u, r') := draw r in
    (if accepts dE beta u then flipped a n m else a, r').

(** The store after one call of [_ising_update] on the array at [field]. *)
Definition site_update (field : loc) (n m : Z) (beta : spec_float)
    (s : state) : state :=
  match heap s !! field with
  | Some a =>
      let (a', r') := metropolis a n m beta (np_random s) in
      State (<[field := a']> (heap s)) r' (libc_rand s)
  | None => s
  end.

(** The store after calls of [_ising_update] at the given sites, in order. *)
Definition sweep (field : loc) (beta : spec_float) (sites : list (Z * Z))
    (s : state) : state :=
  foldl (fun s p => site_update field p.1 p.2 beta s) s sites.

(** The array and the generator after calls of [_ising_update] at the
    given sites, in order. *)
Definition lattice_sweep (beta : spec_float) (sites : list (Z * Z))
    (ar : ndarray * rng spec_float) : ndarray * rng spec_float :=
  foldl (fun ar p => metropolis ar.1 p.1 p.2 beta ar.2) ar sites.

(** The array and the generator after [K] steps. *)
Definition lattice_run (K : nat) (beta : spec_float)
    (ar : ndarray * rng spec_float) : ndarray * rng spec_float :=
  Nat.iter K (fun ar => lattice_sweep beta (step_sites (shape0 ar.1) (shape1 ar.1)) ar) ar.

(** The same for the Cython evaluator: [total] as a C [int], [dE] as a C
    [float], the sample an integer from [rand()]. *)
Definition cy_total_of (a : ndarray) (n m : Z) : Z :=
  foldl (fun t p => int32 (int64 (t + cell a p.1 p.2))) 0
        (neighbors (shape0 a) (shape1 a) n m).

Definition cy_dE_of (a : ndarray) (n m : Z) : spec_float :=
  float_of_int (int64 (int64 (2 * cell a n m) * cy_total_of a n m)).

Definition cy_accepts (dE beta : spec_float) (r : Z) : bool :=
  SFltb (double_of_int r)
        (double_mul (libc_exp (double_of_float (float_mul (SFopp dE) beta)))
                    (double_of_int RAND_MAX)).

Definition cy_metropolis (a : ndarray) (n m : Z) (beta : spec_float)
    (r : rng Z) : ndarray * rng Z :=
  let dE := cy_dE_of a n m in
  if SFleb dE (float_of_int 0) then (flipped a n m, r)
  else
    let (u, r') := draw r in
    (if cy_accepts dE beta u then flipped a n m else a, r').

Definition cy_site_update (field : loc) (n m : Z) (beta : spec_float)
    (s : state) : state :=
  match heap s !! field with
  | Some a =>
      let (a', r') := cy_metropolis a n m beta (libc_rand s) in
      State (<[field := a']> (heap s)) (np_random s) r'
  | None => s
  end.

Definition cy_sweep (field : loc) (beta : spec_float) (sites : list (Z * Z))
    (s : state) : state :=
  foldl (fun s p => cy_site_update field p.1 p.2 beta s) s sites.

End Denotation.

(** The dimensions fit a C [int]. *)
Definition fits_int (a : ndarray) : Prop :=
  shape0 a < 2 ^ 31 /\ shape1 a < 2 ^ 31.

#[global] Instance fits_int_dec a : Decision (fits_int a).
Proof. unfold fits_int. apply _. Defined.



(** A step operation returns the reference it was given. *)
Definition returns_argument (step : loc -> spec_float -> Comp loc) : Prop :=
  forall field beta s l s', step field beta s = Some (l, s') -> l = field.

(** The sum of a list of integers. *)
Definition sumZ (l : list Z) : Z := foldr Z.add 0 l.

(** The neighbour sum as the specification words it: the cells at the
    offsets [{-1,0,+1} x {-1,0,+1}] around [(n, m)], the centre offset
    left out, each coordinate taken modulo the dimension. *)
Definition stencil_sum (a : ndarray) (n m : Z) : Z :=
  sumZ (di ← [-1; 0; 1]; dj ← [-1; 0; 1];
        if decide (di = 0 /\ dj = 0) then []
        else [cell a ((n + di) mod shape0 a) ((m + dj) mod shape1 a)]).

(** The array at [field] is well shaped, of dimensions [N] by [M]. *)
Definition holds (field : loc) (N M : Z) (s : state) : Prop :=
  exists a, heap s !! field = Some a /\ valid a /\ shape0 a = N /\ shape1 a = M.


(** ** Examples to evaluate the kernel on *)

(** A platform for the examples: both exponentials answer one half
    whatever their argument, [RAND_MAX] is that of glibc. *)
Definition half : spec_float := S754_finite false 4503599627370496 (-53).
Definition example_platform : Platform :=
  {| np_exp := fun _ => half; libc_exp := fun _ => half; RAND_MAX := 2147483647 |}.

(** Generators that always deliver zero. *)
Definition zeros : rng spec_float := Rng (fun _ => S754_zero false) 0.
Definition zerosZ : rng Z := Rng (fun _ => 0) 0.

(** A store with one array, at reference 1. *)
Definition store_of (a : ndarray) : state := State {[ 1%positive := a ]} zeros zerosZ.

(** The 3 by 3 lattice of the boundary test: all +1 but -1 at (0, 0). *)
Definition corner3 : ndarray := NDArray 3 3 [-1; 1; 1; 1; 1; 1; 1; 1; 1].

(** A 1 by 4 lattice. *)
Definition row4 : ndarray := NDArray 1 4 [1; -1; -1; 1].

(** Another store: the same lattice at reference 2, an unrelated array
    at reference 5, and the libc generator in another state. *)
Definition other_store : state :=
  State {[ 2%positive := corner3; 5%positive := row4 ]} zeros (Rng (fun _ => 7) 3).

(** ** The rest of the notebook: snapshots, display, the frame player *)

(** [a.copy()]: a newly allocated array with a copy of the buffer. *)
Definition copy (field : loc) : Comp loc :=
  fun s => a ← heap s !! field;
           let l := fresh (dom (heap s)) in
           Some (l, set_heap (<[l := a]> (heap s)) s).

(** [xs[i]] on a Python list: negative indices count from the end,
    anything outside [-len, len) raises [IndexError]. *)
Definition list_getitem {A} (xs : list A) (i : Z) : Comp A :=
  match norm_index i (Z.of_nat (length xs)) with
  | Some k => match xs !! Z.to_nat k with Some x => ret x | None => raise end
  | None => raise
  end.

Section Sequences.
Context `{Platform}.

(** The cell that records a run: [images = [field]], then [K] times
    [images.append(ising_step(images[-1].copy()))].  The notebook runs it
    with [K = 50] and the default [beta]. *)
Definition ising_sequence (K : Z) (field : loc) (beta : spec_float) : Comp (list loc) :=
  let images := [field] in
  for_acc (range 0 K) images (fun images i =>
    let* last := list_getitem images (-1) in
    let* c := copy last in
    let* r := ising_step c beta in
    ret (images ++ [r])).

(** The same cell with [cy_ising_step] (there [K = 100]). *)
Definition cy_ising_sequence (K : Z) (field : loc) (beta : spec_float) : Comp (list loc) :=
  let images := [field] in
  for_acc (range 0 K) images (fun images i =>
    let* last := list_getitem images (-1) in
    let* c := copy last in
    let* r := cy_ising_step c beta in
    ret (images ++ [r])).

(** What holds of the list [images] and the store after [j] rounds of the
    recording loop started in store [s0] on array [a0] at [field]. *)
Definition recorded (s0 : state) (field : loc) (a0 : ndarray) (beta : spec_float)
    (j : nat) (images : list loc) (s : state) : Prop :=
  length images = S j /\ images !! 0%nat = Some field /\ NoDup images /\
  (forall k l, images !! k = Some l ->
     heap s !! l = Some (lattice_run k beta (a0, np_random s0)).1) /\
  heap s0 ⊆ heap s /\
  np_random s = (lattice_run j beta (a0, np_random s0)).2 /\
  libc_rand s = libc_rand s0.

(** The array and the generator of libc after calls of
    [_cy_ising_update] at the given sites, in order, and after [K] steps. *)
Definition cy_lattice_sweep (beta : spec_float) (sites : list (Z * Z))
    (ar : ndarray * rng Z) : ndarray * rng Z :=
  foldl (fun ar p => cy_metropolis ar.1 p.1 p.2 beta ar.2) ar sites.

Definition cy_lattice_run (K : nat) (beta : spec_float)
    (ar : ndarray * rng Z) : ndarray * rng Z :=
  Nat.iter K (fun ar => cy_lattice_sweep beta (step_sites (shape0 ar.1) (shape1 ar.1)) ar) ar.

(** The same after [j] rounds of the recording loop with [cy_ising_step]. *)
Definition cy_recorded (s0 : state) (field : loc) (a0 : ndarray) (beta : spec_float)
    (j : nat) (images : list loc) (s : state) : Prop :=
  length images = S j /\ images !! 0%nat = Some field /\ NoDup images /\
  (forall k l, images !! k = Some l ->
     heap s !! l = Some (cy_lattice_run k beta (a0, libc_rand s0)).1) /\
  heap s0 ⊆ heap s /\
  libc_rand s = (cy_lattice_run j beta (a0, libc_rand s0)).2 /\
  np_random s = np_random s0.

End Sequences.

(** An 8-bit greyscale image as [Image.fromarray] builds it from a
    two-dimensional [uint8] array: the width is the number of columns, the
    height the number of rows, the pixels are in row-major order. *)
Record image := Image { width : Z; height : Z; pixels : list Z }.

(** A float rounded towards zero ([None] for infinities and NaN). *)
Definition double_trunc (x : spec_float) : option Z :=
  match x with
  | S754_zero _ => Some 0
  | S754_finite s m e =>
      Some (cond_Zopp s (if 0 <=? e then Zpos m * 2 ^ e else Zpos m / 2 ^ (- e)))
  | _ => None
  end.

(** The cast of [np.uint8(...)] on a [float64]: rounding towards zero; a
    value that does not fit 8 bits has no defined result and is left
    undefined here. *)
Definition uint8_of_double (x : spec_float) : option Z :=
  t ← double_trunc x;
  if (0 <=? t) && (t <? 256) then Some t else None.

(** One element of [np.uint8((field + 1) * 0.5 * 255)]. *)
Definition pixel (c : Z) : option Z :=
  uint8_of_double
    (double_mul (double_mul (double_of_int (int64 (c + 1))) half) (double_of_int 255)).

Definition display_spin_field (field : loc) : Comp image :=
  fun s => a ← heap s !! field;
           px ← mapM pixel (data a);
           Some (Image (shape1 a) (shape0 a) px, s).

(** The closure [_show] of [display_ising_sequence]. *)
Definition _show (images : list loc) (frame : Z) : Comp image :=
  let* field := list_getitem images frame in
  display_spin_field field.

(** The range [(0, len(images) - 1)] the player offers for [frame]. *)
Definition frame_range (images : list loc) : Z * Z :=
  (0, Z.of_nat (length images) - 1).

(** A store with a 2 by 2 lattice at reference 1 and generators that
    deliver a sample above one half, so that the example platform never
    accepts. *)
Definition three_quarters : spec_float := S754_finite false 6755399441055744 (-53).
Definition square2 : ndarray := NDArray 2 2 [1; -1; -1; 1].
Definition empty3 : ndarray := NDArray 0 3 [].

(** A generator that delivers zero twenty times and three quarters from
    then on. *)
Definition zeros_then (k : nat) : spec_float :=
  if (k <? 20)%nat then S754_zero false else three_quarters.

(** The array with every cell negated ([-field]). *)
Definition negated (a : ndarray) : ndarray :=
  NDArray (shape0 a) (shape1 a) (Z.opp <$> data a).

(** ** Running the primitives *)

Lemma bind_run {A B} (m : Comp A) (k : A -> Comp B) s x s' :
  m s = Some (x, s') -> bind m k s = k x s'.
Proof. intros E. unfold bind. now rewrite E. Qed.

Lemma range_3 n : range (n - 1) (n + 2) = [n - 1; n; n + 1].
Proof.
  unfold range. replace (n + 2 - (n - 1)) with 3 by lia.
  unfold seqZ. change (Z.to_nat 3) with 3%nat. cbn [seq fmap list_fmap].
  repeat (f_equal; try lia).
Qed.

Lemma range_0_2 : range 0 2 = [0; 1].
Proof. reflexivity. Qed.

Lemma offset_lt a i j :
  valid a -> site a i j -> (offset a i j < length (data a))%nat.
Proof.
  intros (HN & HM & Hlen) [Hi Hj]. rewrite Hlen. unfold offset.
  apply Z2Nat.inj_lt; nia.
Qed.

Lemma offset_inj a i j i' j' :
  site a i j -> site a i' j' -> offset a i j = offset a i' j' -> i = i' /\ j = j'.
Proof.
  intros [Hi Hj] [Hi' Hj'] E. unfold offset in E.
  apply Z2Nat.inj in E; [|nia|nia].
  assert (i = i') by nia. subst. lia.
Qed.

Lemma lookup_cell a i j :
  valid a -> site a i j -> data a !! offset a i j = Some (cell a i j).
Proof.
  intros Hv Hs. unfold cell.
  destruct (lookup_lt_is_Some_2 (data a) (offset a i j)) as [v ->]; [|done].
  by apply offset_lt.
Qed.

Lemma norm_index_site i dim : 0 <= i < dim -> norm_index i dim = Some i.
Proof.
  intros. unfold norm_index.
  destruct (Z.leb_spec 0 i), (Z.ltb_spec i dim); simpl; try lia; done.
Qed.

Lemma raw_index_site i dim : 0 <= i < dim -> raw_index i dim = Some i.
Proof.
  intros. unfold raw_index.
  destruct (Z.leb_spec 0 i), (Z.ltb_spec i dim); simpl; try lia; done.
Qed.

Lemma shape_run field a s :
  heap s !! field = Some a -> shape field s = Some ((shape0 a, shape1 a), s).
Proof. intros E. unfold shape. by rewrite E. Qed.

Lemma getitem_run field a i j s :
  heap s !! field = Some a -> valid a -> site a i j ->
  getitem field i j s = Some (cell a i j, s).
Proof.
  intros E Hv Hs. unfold getitem. rewrite E. simpl.
  destruct Hs as [Hi Hj].
  rewrite (norm_index_site i), (norm_index_site j) by done. simpl.
  by rewrite lookup_cell.
Qed.

Lemma setitem_run field a i j v s :
  heap s !! field = Some a -> valid a -> site a i j ->
  setitem field i j v s = Some (tt, set_heap (<[field := with_cell a i j v]> (heap s)) s).
Proof.
  intros E Hv Hs. unfold setitem. rewrite E. simpl.
  destruct Hs as [Hi Hj].
  rewrite (norm_index_site i), (norm_index_site j) by done. simpl.
  by rewrite lookup_cell.
Qed.

Lemma view_get_run field a i j s :
  heap s !! field = Some a -> valid a -> site a i j ->
  view_get field i j s = Some (cell a i j, s).
Proof.
  intros E Hv Hs. unfold view_get. rewrite E. simpl.
  destruct Hs as [Hi Hj].
  rewrite (raw_index_site i), (raw_index_site j) by done. simpl.
  by rewrite lookup_cell.
Qed.

Lemma view_set_run field a i j v s :
  heap s !! field = Some a -> valid a -> site a i j ->
  view_set field i j v s = Some (tt, set_heap (<[field := with_cell a i j v]> (heap s)) s).
Proof.
  intros E Hv Hs. unfold view_set. rewrite E. simpl.
  destruct Hs as [Hi Hj].
  rewrite (raw_index_site i), (raw_index_site j) by done. simpl.
  by rewrite lookup_cell.
Qed.

Lemma py_mod_run a b s : b <> 0 -> py_mod a b s = Some (a mod b, s).
Proof. intros Hb. unfold py_mod. by rewrite (proj2 (Z.eqb_neq b 0) Hb). Qed.

Lemma mod_site a i j :
  0 < shape0 a -> 0 < shape1 a -> site a (i mod shape0 a) (j mod shape1 a).
Proof. intros. split; by apply Z.mod_pos_bound. Qed.

(** ** Running the evaluator *)

Section Evaluator.
Context `{Platform}.
Implicit Types (a : ndarray) (s : state) (field : loc).

Lemma bind_assoc {A B C} (m : Comp A) (f : A -> Comp B) (g : B -> Comp C) s :
  bind (bind m f) g s = bind m (fun x => bind (f x) g) s.
Proof. unfold bind. by destruct (m s) as [[x s']|]. Qed.

Lemma bind_ret {A B} (x : A) (k : A -> Comp B) s : bind (ret x) k s = k x s.
Proof. done. Qed.

Ltac run_with tac :=
  repeat first
    [ rewrite Z.eqb_refl
    | rewrite (proj2 (Z.eqb_neq _ _)) by lia
    | progress cbn [andb for_acc for_]
    | rewrite bind_assoc
    | rewrite bind_ret
    | erewrite bind_run by tac ].

Lemma neighbor_total_run field a n m s :
  heap s !! field = Some a -> valid a -> 0 < shape0 a -> 0 < shape1 a ->
  neighbor_total field n m s = Some (total_of a n m, s).
Proof.
  intros E Hv HN HM. unfold neighbor_total.
  erewrite bind_run by (by apply shape_run). rewrite !range_3.
  run_with ltac:(first
    [ apply py_mod_run; lia
    | eapply getitem_run; eauto using mod_site ]).
  unfold total_of, neighbors, neighbor_offsets.
  cbn [foldl fmap list_fmap fst snd]. reflexivity.
Qed.

Lemma local_dE_run field a n m s :
  heap s !! field = Some a -> valid a -> site a n m ->
  local_dE field n m s = Some (dE_of a n m, s).
Proof.
  intros E Hv Hs. unfold local_dE.
  erewrite bind_run by (eapply neighbor_total_run; eauto; destruct Hs; lia).
  erewrite bind_run by (by eapply getitem_run).
  reflexivity.
Qed.

Lemma flip_run field a n m s :
  heap s !! field = Some a -> valid a -> site a n m ->
  flip field n m s = Some (tt, set_heap (<[field := flipped a n m]> (heap s)) s).
Proof.
  intros E Hv Hs. unfold flip.
  erewrite bind_run by (by eapply getitem_run).
  by erewrite setitem_run.
Qed.

Lemma ising_update_run field a n m beta s :
  heap s !! field = Some a -> valid a -> site a n m ->
  _ising_update field n m beta s = Some (tt, site_update field n m beta s).
Proof.
  intros E Hv Hs. unfold _ising_update, site_update, metropolis. rewrite E.
  erewrite bind_run by (by eapply local_dE_run).
  destruct (dE_of a n m <=? 0).
  - by erewrite flip_run.
  - unfold np_random_rand at 1. unfold bind. cbn [draw].
    fold (accepts (dE_of a n m) beta (samples (np_random s) (drawn (np_random s)))).
    destruct (accepts _ _ _).
    + by erewrite flip_run.
    + unfold ret, set_np_random. by rewrite insert_id.
Qed.

Lemma int32_small x : - 2 ^ 31 <= x < 2 ^ 31 -> int32 x = x.
Proof.
  intros. unfold int32, wrap. change (2 ^ (32 - 1)) with (2 ^ 31).
  rewrite Z.mod_small; lia.
Qed.

Lemma cy_neighbor_total_run field a n m s :
  heap s !! field = Some a -> valid a -> fits_int a ->
  0 < shape0 a -> 0 < shape1 a ->
  cy_neighbor_total field n m s = Some (cy_total_of a n m, s).
Proof.
  intros E Hv [F0 F1] HN HM. unfold cy_neighbor_total.
  erewrite bind_run by (by apply shape_run). cbn beta iota zeta.
  rewrite !int32_small by lia. rewrite !range_3.
  run_with ltac:(first
    [ apply py_mod_run; lia
    | eapply view_get_run; eauto using mod_site ]).
  unfold cy_total_of, neighbors, neighbor_offsets.
  cbn [foldl fmap list_fmap fst snd]. reflexivity.
Qed.

Lemma cy_local_dE_run field a n m s :
  heap s !! field = Some a -> valid a -> fits_int a -> site a n m ->
  cy_local_dE field n m s = Some (cy_dE_of a n m, s).
Proof.
  intros E Hv Hf Hs. unfold cy_local_dE.
  erewrite bind_run by (eapply cy_neighbor_total_run; eauto; destruct Hs; lia).
  erewrite bind_run by (by eapply view_get_run).
  reflexivity.
Qed.

Lemma cy_flip_run field a n m s :
  heap s !! field = Some a -> valid a -> site a n m ->
  cy_flip field n m s = Some (tt, set_heap (<[field := flipped a n m]> (heap s)) s).
Proof.
  intros E Hv Hs. unfold cy_flip.
  erewrite bind_run by (by eapply view_get_run).
  by erewrite view_set_run.
Qed.

Lemma cy_ising_update_run field a n m beta s :
  heap s !! field = Some a -> valid a -> fits_int a -> site a n m ->
  _cy_ising_update field n m beta s = Some (tt, cy_site_update field n m beta s).
Proof.
  intros E Hv Hf Hs. unfold _cy_ising_update, cy_site_update, cy_metropolis.
  rewrite E.
  erewrite bind_run by (by eapply cy_local_dE_run).
  destruct (SFleb (cy_dE_of a n m) (float_of_int 0)).
  - by erewrite cy_flip_run.
  - unfold rand at 1. unfold bind. cbn [draw].
    fold (cy_accepts (cy_dE_of a n m) beta (samples (libc_rand s) (drawn (libc_rand s)))).
    destruct (cy_accepts _ _ _).
    + by erewrite cy_flip_run.
    + unfold ret, set_libc_rand. by rewrite insert_id.
Qed.

End Evaluator.

(** ** Running the loops *)

Lemma valid_with_cell a i j v : valid a -> valid (with_cell a i j v).
Proof.
  intros (HN & HM & Hlen). unfold valid, with_cell. simpl.
  by rewrite length_insert.
Qed.

Lemma range_step_2_elem x p N :
  x ∈ range_step p N 2 <-> p <= x < N /\ (x - p) mod 2 = 0.
Proof.
  unfold range_step. rewrite list_elem_of_fmap. split.
  - intros (k & -> & Hk). apply elem_of_seqZ in Hk.
    replace (p + k * 2 - p) with (k * 2) by lia. rewrite Z.mod_mul by lia.
    split; [|done].
    assert (2 * ((N - p + 2 - 1) `div` 2) <= N - p + 2 - 1)
      by (apply Z.mul_div_le; lia).
    lia.
  - intros [Hx Hm]. exists ((x - p) `div` 2).
    pose proof (Z.div_mod (x - p) 2 ltac:(lia)) as Hd. rewrite Hm in Hd.
    split; [lia|]. apply elem_of_seqZ. split.
    + apply Z.div_pos; lia.
    + rewrite Z.add_0_l. apply Z.div_lt_upper_bound; [lia|].
      pose proof (Z.mul_succ_div_gt (N - p + 2 - 1) 2 ltac:(lia)). lia.
Qed.

Section Loops.
Context `{Platform}.
Implicit Types (a : ndarray) (s : state) (field : loc).

Lemma sweep_app field beta xs ys s :
  sweep field beta (xs ++ ys) s = sweep field beta ys (sweep field beta xs s).
Proof. unfold sweep. by rewrite foldl_app. Qed.

Lemma cy_sweep_app field beta xs ys s :
  cy_sweep field beta (xs ++ ys) s = cy_sweep field beta ys (cy_sweep field beta xs s).
Proof. unfold cy_sweep. by rewrite foldl_app. Qed.

Lemma valid_flipped a n m : valid a -> valid (flipped a n m).
Proof. apply valid_with_cell. Qed.

Lemma site_update_holds field N M n m beta s :
  holds field N M s -> holds field N M (site_update field n m beta s).
Proof.
  intros (a & E & Hv & HN & HM). unfold site_update, metropolis. rewrite E.
  unfold holds.
  destruct (dE_of a n m <=? 0); [|cbn [draw]; destruct (accepts _ _ _)];
    cbn [heap]; eexists; rewrite lookup_insert_eq;
    (split; [done|]); eauto using valid_flipped.
Qed.

Lemma cy_site_update_holds field N M n m beta s :
  holds field N M s -> holds field N M (cy_site_update field n m beta s).
Proof.
  intros (a & E & Hv & HN & HM). unfold cy_site_update, cy_metropolis. rewrite E.
  unfold holds.
  destruct (SFleb _ _); [|cbn [draw]; destruct (cy_accepts _ _ _)];
    cbn [heap]; eexists; rewrite lookup_insert_eq;
    (split; [done|]); eauto using valid_flipped.
Qed.

(** A loop whose body performs a sweep performs the concatenated sweep. *)
Lemma for_sweep {A} field beta (I : state -> Prop) (P : A -> Prop)
    (g : A -> list (Z * Z)) (body : A -> Comp unit) (xs : list A) :
  (forall x s, P x -> I s ->
     body x s = Some (tt, sweep field beta (g x) s) /\ I (sweep field beta (g x) s)) ->
  Forall P xs -> forall s, I s ->
  for_ xs body s = Some (tt, sweep field beta (xs ≫= g) s) /\
  I (sweep field beta (xs ≫= g) s).
Proof.
  intros Hbody. induction 1 as [|x xs Hx Hxs IH]; intros s Hs; [done|].
  cbn [for_ mbind list_bind]. rewrite sweep_app.
  destruct (Hbody x s Hx Hs) as [E Hs'].
  rewrite (bind_run _ _ _ _ _ E). by apply IH.
Qed.

Lemma for_cy_sweep {A} field beta (I : state -> Prop) (P : A -> Prop)
    (g : A -> list (Z * Z)) (body : A -> Comp unit) (xs : list A) :
  (forall x s, P x -> I s ->
     body x s = Some (tt, cy_sweep field beta (g x) s) /\
     I (cy_sweep field beta (g x) s)) ->
  Forall P xs -> forall s, I s ->
  for_ xs body s = Some (tt, cy_sweep field beta (xs ≫= g) s) /\
  I (cy_sweep field beta (xs ≫= g) s).
Proof.
  intros Hbody. induction 1 as [|x xs Hx Hxs IH]; intros s Hs; [done|].
  cbn [for_ mbind list_bind]. rewrite cy_sweep_app.
  destruct (Hbody x s Hx Hs) as [E Hs'].
  rewrite (bind_run _ _ _ _ _ E). by apply IH.
Qed.

Lemma sublattice_pass_run field N M p q beta s :
  0 <= p -> 0 <= q -> holds field N M s ->
  sublattice_pass field N M p q beta s
    = Some (tt, sweep field beta (pass_sites N M p q) s) /\
  holds field N M (sweep field beta (pass_sites N M p q) s).
Proof.
  intros Hp Hq Hs. unfold sublattice_pass, pass_sites.
  apply (for_sweep field beta (holds field N M) (fun n => 0 <= n < N)); [|
    apply Forall_forall; intros n Hn%range_step_2_elem; lia | done].
  clear s Hs. intros n s Hn Hs.
  apply (for_sweep field beta (holds field N M) (fun m => 0 <= m < M)); [|
    apply Forall_forall; intros m Hm%range_step_2_elem; lia | done].
  clear s Hs. intros m s Hm Hs. cbn [sweep foldl fst snd]. split.
  - destruct Hs as (a & E & Hv & <- & <-). by eapply ising_update_run.
  - by apply site_update_holds.
Qed.

Lemma four_passes_run field N M beta s :
  holds field N M s ->
  for_ (range 0 2) (fun n_offset =>
    for_ (range 0 2) (fun m_offset =>
      sublattice_pass field N M n_offset m_offset beta)) s
    = Some (tt, sweep field beta (step_sites N M) s) /\
  holds field N M (sweep field beta (step_sites N M) s).
Proof.
  intros Hs. unfold step_sites.
  apply (for_sweep field beta (holds field N M) (fun p => 0 <= p)); [|
    rewrite range_0_2; repeat constructor; lia | done].
  clear s Hs. intros p s Hp Hs.
  apply (for_sweep field beta (holds field N M) (fun q => 0 <= q)); [|
    rewrite range_0_2; repeat constructor; lia | done].
  clear s Hs. intros q s Hq Hs. by apply sublattice_pass_run.
Qed.

Lemma ising_step_run field a beta s :
  heap s !! field = Some a -> valid a ->
  ising_step field beta s
    = Some (field, sweep field beta (step_sites (shape0 a) (shape1 a)) s).
Proof.
  intros E Hv. unfold ising_step.
  erewrite bind_run by (by apply shape_run). cbn beta iota.
  destruct (four_passes_run field (shape0 a) (shape1 a) beta s) as [E' _];
    [by exists a|].
  by erewrite bind_run by exact E'.
Qed.

End Loops.

(** ** Arithmetic of the evaluator *)

Lemma wrap_eq w x : 0 < w -> wrap w x = x - 2 ^ w * ((x + 2 ^ (w - 1)) `div` 2 ^ w).
Proof.
  intros Hw. unfold wrap. rewrite Z.mod_eq; [lia|].
  apply Z.pow_nonzero; lia.
Qed.

Lemma wrap_shift w x k : 0 < w -> wrap w (x + 2 ^ w * k) = wrap w x.
Proof.
  intros Hw. unfold wrap.
  replace (x + 2 ^ w * k + 2 ^ (w - 1)) with (x + 2 ^ (w - 1) + k * 2 ^ w) by lia.
  rewrite Z.mod_add; [done|]. apply Z.pow_nonzero; lia.
Qed.

Lemma wrap_add_l w x y : 0 < w -> wrap w (wrap w x + y) = wrap w (x + y).
Proof.
  intros Hw. rewrite (wrap_eq w x Hw).
  replace (x - 2 ^ w * ((x + 2 ^ (w - 1)) `div` 2 ^ w) + y)
    with (x + y + 2 ^ w * - ((x + 2 ^ (w - 1)) `div` 2 ^ w)) by lia.
  by apply wrap_shift.
Qed.

Lemma wrap_mul_l w x y : 0 < w -> wrap w (wrap w x * y) = wrap w (x * y).
Proof.
  intros Hw. rewrite (wrap_eq w x Hw).
  replace ((x - 2 ^ w * ((x + 2 ^ (w - 1)) `div` 2 ^ w)) * y)
    with (x * y + 2 ^ w * (- ((x + 2 ^ (w - 1)) `div` 2 ^ w) * y)) by lia.
  by apply wrap_shift.
Qed.

Lemma wrap_small w x : 0 < w -> - 2 ^ (w - 1) <= x < 2 ^ (w - 1) -> wrap w x = x.
Proof.
  intros Hw Hx. unfold wrap.
  assert (2 ^ w = 2 * 2 ^ (w - 1)) as ->.
  { rewrite <-Z.pow_succ_r by lia. f_equal. lia. }
  rewrite Z.mod_small; lia.
Qed.

Lemma int64_small x : - 2 ^ 63 <= x < 2 ^ 63 -> int64 x = x.
Proof. intros. by apply wrap_small. Qed.

Lemma int64_add_l x y : int64 (int64 x + y) = int64 (x + y).
Proof. by apply wrap_add_l. Qed.

Lemma int64_mul_l x y : int64 (int64 x * y) = int64 (x * y).
Proof. by apply wrap_mul_l. Qed.

Lemma int64_mul_r x y : int64 (x * int64 y) = int64 (x * y).
Proof. rewrite (Z.mul_comm x), int64_mul_l. f_equal. lia. Qed.

Lemma int32_int64 x : int32 (int64 x) = int32 x.
Proof.
  unfold int64. rewrite (wrap_eq 64 x) by lia.
  replace (x - 2 ^ 64 * ((x + 2 ^ (64 - 1)) `div` 2 ^ 64))
    with (x + 2 ^ 32 * (- 2 ^ 32 * ((x + 2 ^ (64 - 1)) `div` 2 ^ 64))) by lia.
  by apply wrap_shift.
Qed.

Lemma int32_add_l x y : int32 (int32 x + y) = int32 (x + y).
Proof. by apply wrap_add_l. Qed.

(** The wrapped running sum is the wrapped sum. *)
Lemma foldl_int64 {A} (f : A -> Z) l t :
  foldl (fun t p => int64 (t + f p)) (int64 t) l = int64 (t + sumZ (f <$> l)).
Proof.
  revert t. induction l as [|x l IH]; intros t; cbn [foldl fmap list_fmap sumZ foldr].
  - f_equal. lia.
  - rewrite int64_add_l, IH. fold (sumZ (f <$> l)). f_equal. lia.
Qed.

Lemma foldl_int32 {A} (f : A -> Z) l t :
  foldl (fun t p => int32 (int64 (t + f p))) (int32 t) l = int32 (t + sumZ (f <$> l)).
Proof.
  revert t. induction l as [|x l IH]; intros t; cbn [foldl fmap list_fmap sumZ foldr].
  - f_equal. lia.
  - rewrite int32_int64, int32_add_l, IH. fold (sumZ (f <$> l)). f_equal. lia.
Qed.

(** The sum the loop accumulates is the stencil sum of the specification. *)
Lemma stencil_sum_neighbors a n m :
  stencil_sum a n m
  = sumZ ((fun p => cell a p.1 p.2) <$> neighbors (shape0 a) (shape1 a) n m).
Proof.
  unfold stencil_sum, neighbors, neighbor_offsets.
  cbn [mbind list_bind fmap list_fmap app fst snd].
  repeat (case_decide; [lia|]). case_decide; [|lia].
  repeat (case_decide; [lia|]).
  cbn [app fmap list_fmap fst snd]. rewrite !Z.add_0_r.
  by replace (n + -1) with (n - 1) by lia; replace (m + -1) with (m - 1) by lia.
Qed.

Lemma total_of_stencil a n m : total_of a n m = int64 (stencil_sum a n m).
Proof.
  rewrite stencil_sum_neighbors. unfold total_of.
  change 0 with (int64 0) at 1. by rewrite foldl_int64.
Qed.

Lemma cy_total_of_stencil a n m : cy_total_of a n m = int32 (stencil_sum a n m).
Proof.
  rewrite stencil_sum_neighbors. unfold cy_total_of.
  change 0 with (int32 0) at 1. by rewrite foldl_int32.
Qed.

Lemma dE_of_stencil a n m :
  dE_of a n m = int64 (2 * cell a n m * stencil_sum a n m).
Proof.
  unfold dE_of. by rewrite total_of_stencil, int64_mul_l, int64_mul_r.
Qed.

Lemma cell_spin a i j :
  lattice a -> site a i j -> cell a i j = -1 \/ cell a i j = 1.
Proof.
  intros [Hv Hsp] Hs. unfold spins in Hsp. rewrite Forall_lookup in Hsp.
  by apply (Hsp (offset a i j)), lookup_cell.
Qed.

Lemma stencil_sum_bound a n m :
  lattice a -> 0 < shape0 a -> 0 < shape1 a -> -8 <= stencil_sum a n m <= 8.
Proof.
  intros Ha HN HM. rewrite stencil_sum_neighbors.
  unfold neighbors, neighbor_offsets. cbn [fmap list_fmap sumZ foldr fst snd].
  repeat match goal with
  | |- context [cell a (?i `mod` _) (?j `mod` _)] =>
      let Hc := fresh "Hc" in
      pose proof (cell_spin a _ _ Ha (mod_site a i j HN HM)) as Hc;
      generalize dependent (cell a (i `mod` shape0 a) (j `mod` shape1 a)); intros
  end.
  lia.
Qed.

(** ** The example lattices are lattices *)

Lemma valid_corner3 : valid corner3.
Proof. repeat split; cbn; lia. Defined.

Lemma spins_corner3 : spins corner3.
Proof. unfold spins, corner3. cbn. repeat constructor; lia. Defined.

Lemma valid_row4 : valid row4.
Proof. repeat split; cbn; lia. Defined.

Lemma spins_row4 : spins row4.
Proof. unfold spins, row4. cbn. repeat constructor; lia. Defined.

(** ** The energy difference (C2, C10) *)

(** C2: at every site, the evaluator computes [dE = 2 * spin(n, m) * S]
    where [S] is the sum of the eight cells at the offsets
    [{-1,0,+1} x {-1,0,+1}] around [(n, m)] without the centre, rows taken
    modulo [N] and columns modulo [M]: on any [int64] array up to
    wrap-around, and exactly on a lattice of spins.  At site [(0, 0)] of a
    lattice of at least 3 by 3 the eight cells are [(N-1, M-1)], [(N-1, 0)],
    [(N-1, 1)], [(0, M-1)], [(0, 1)], [(1, M-1)], [(1, 0)] and [(1, 1)]. *)
Theorem local_dE_stencil field a n m s :
  heap s !! field = Some a -> valid a -> site a n m ->
  neighbor_total field n m s = Some (int64 (stencil_sum a n m), s) /\
  local_dE field n m s = Some (int64 (2 * cell a n m * stencil_sum a n m), s) /\
  (spins a ->
     neighbor_total field n m s = Some (stencil_sum a n m, s) /\
     local_dE field n m s = Some (2 * cell a n m * stencil_sum a n m, s)) /\
  (n = 0 -> m = 0 -> 3 <= shape0 a -> 3 <= shape1 a ->
     let N := shape0 a in
     let M := shape1 a in
     neighbors N M n m
       = [(N - 1, M - 1); (N - 1, 0); (N - 1, 1);
          (0, M - 1); (0, 1);
          (1, M - 1); (1, 0); (1, 1)] /\
     stencil_sum a n m
       = cell a (N - 1) (M - 1) + cell a (N - 1) 0 + cell a (N - 1) 1
         + cell a 0 (M - 1) + cell a 0 1
         + cell a 1 (M - 1) + cell a 1 0 + cell a 1 1).
Proof.
  intros E Hv Hs.
  assert (0 < shape0 a /\ 0 < shape1 a) as [HN HM] by (destruct Hs; lia).
  pose proof (neighbor_total_run field a n m s E Hv HN HM) as Ht.
  pose proof (local_dE_run field a n m s E Hv Hs) as Hd.
  rewrite total_of_stencil in Ht. rewrite dE_of_stencil in Hd.
  split; [done|]. split; [done|]. split.
  - intros Hsp.
    pose proof (stencil_sum_bound a n m (conj Hv Hsp) HN HM) as Hb.
    destruct (cell_spin a n m (conj Hv Hsp) Hs) as [Hc|Hc].
    + rewrite Ht, Hd, Hc, !int64_small; [done| |]; lia.
    + rewrite Ht, Hd, Hc, !int64_small; [done| |]; lia.
  - intros -> -> HN3 HM3. cbn zeta.
    assert (neighbors (shape0 a) (shape1 a) 0 0
       = [(shape0 a - 1, shape1 a - 1); (shape0 a - 1, 0); (shape0 a - 1, 1);
          (0, shape1 a - 1); (0, 1);
          (1, shape1 a - 1); (1, 0); (1, 1)]) as Hn.
    { unfold neighbors, neighbor_offsets. cbn [fmap list_fmap fst snd].
      change (0 - 1) with (-1). change (0 + 1) with 1.
      assert (forall d, 3 <= d -> (-1) `mod` d = d - 1) as Hm1.
      { intros d Hd3. symmetry. apply (Z.mod_unique_pos _ _ (-1)); lia. }
      rewrite !Hm1 by done.
      by rewrite !(Z.mod_small 1), !(Z.mod_small 0) by lia. }
    split; [done|].
    rewrite stencil_sum_neighbors, Hn. cbn [fmap list_fmap sumZ foldr fst snd].
    lia.
Qed.

Lemma local_dE_stencil_witness :
  heap (store_of corner3) !! 1%positive = Some corner3 /\
  valid corner3 /\ site corner3 0 0 /\ spins corner3 /\
  local_dE 1%positive 0 0 (store_of corner3) = Some (-16, store_of corner3).
Proof.
  assert (site corner3 0 0) as Hsite by (unfold site; cbn; lia).
  refine (conj eq_refl (conj valid_corner3 (conj Hsite (conj spins_corner3 _)))).
  destruct (local_dE_stencil 1%positive corner3 0 0 (store_of corner3)
    eq_refl valid_corner3 Hsite) as (_ & _ & Hsp & H00).
  destruct (Hsp spins_corner3) as [_ Hd].
  destruct (H00 eq_refl eq_refl ltac:(cbn; lia) ltac:(cbn; lia)) as [_ Hsum].
  rewrite Hd, Hsum. reflexivity.
Defined.

(** C10: on a lattice of one row and at least three columns the sum the
    evaluator computes at site [(0, m)] is three times the left neighbour
    plus three times the right neighbour plus twice the site's own spin:
    the skip of the centre compares the indices before the modulo, so
    rows [-1] and [+1] both land on row 0 and contribute the full row of
    three cells. *)
Theorem single_row_total field a m s :
  heap s !! field = Some a -> valid a ->
  shape0 a = 1 -> 3 <= shape1 a -> 0 <= m < shape1 a ->
  let M := shape1 a in
  let S := 3 * cell a 0 ((m - 1) mod M) + 3 * cell a 0 ((m + 1) mod M)
           + 2 * cell a 0 m in
  neighbor_total field 0 m s = Some (int64 S, s) /\
  (spins a -> neighbor_total field 0 m s = Some (S, s)).
Proof.
  intros E Hv HN HM Hm. cbn zeta.
  assert (site a 0 m) as Hs by (unfold site; lia).
  assert (stencil_sum a 0 m
    = 3 * cell a 0 ((m - 1) mod shape1 a) + 3 * cell a 0 ((m + 1) mod shape1 a)
      + 2 * cell a 0 m) as Hsum.
  { rewrite stencil_sum_neighbors. unfold neighbors, neighbor_offsets.
    cbn [fmap list_fmap sumZ foldr fst snd]. rewrite HN, !Z.mod_1_r.
    rewrite (Z.mod_small m) by lia. lia. }
  rewrite <-Hsum.
  rewrite (neighbor_total_run field a 0 m s E Hv) by lia.
  rewrite total_of_stencil. split; [done|]. intros Hsp.
  pose proof (stencil_sum_bound a 0 m (conj Hv Hsp)) as Hb.
  rewrite int64_small; [done|]. lia.
Qed.

Lemma single_row_total_witness :
  heap (store_of row4) !! 1%positive = Some row4 /\ valid row4 /\
  shape0 row4 = 1 /\ 3 <= shape1 row4 /\ 0 <= 0 < shape1 row4 /\ spins row4 /\
  neighbor_total 1%positive 0 0 (store_of row4) = Some (2, store_of row4).
Proof.
  assert (3 <= shape1 row4) as HM by (cbn; lia).
  assert (0 <= 0 < shape1 row4) as Hm by (cbn; lia).
  refine (conj eq_refl (conj valid_row4 (conj eq_refl (conj HM (conj Hm
            (conj spins_row4 _)))))).
  destruct (single_row_total 1%positive row4 0 (store_of row4)
    eq_refl valid_row4 eq_refl HM Hm) as [_ Hsp].
  exact (Hsp spins_row4).
Defined.

(** ** Cells of an updated array *)

Lemma cell_with_cell_eq a i j v :
  valid a -> site a i j -> cell (with_cell a i j v) i j = v.
Proof.
  intros Hv Hs. unfold cell, with_cell, offset. cbn [data shape1].
  rewrite list_lookup_insert_eq; [done|]. by apply offset_lt.
Qed.

Lemma cell_with_cell_ne a i j v i' j' :
  site a i j -> site a i' j' -> (i, j) <> (i', j') ->
  cell (with_cell a i j v) i' j' = cell a i' j'.
Proof.
  intros Hs Hs' Hne. unfold cell, with_cell, offset. cbn [data shape1].
  rewrite list_lookup_insert_ne; [done|].
  intros Ho. apply Hne. by destruct (offset_inj a i j i' j' Hs Hs' Ho) as [-> ->].
Qed.

Lemma int64_neg_spin c : c = -1 \/ c = 1 -> int64 (c * -1) = - c.
Proof. by intros [-> | ->]. Qed.

Lemma cell_flipped a n m :
  lattice a -> site a n m -> cell (flipped a n m) n m = - cell a n m.
Proof.
  intros Ha Hs. unfold flipped. rewrite cell_with_cell_eq by (done || apply Ha).
  by apply int64_neg_spin, cell_spin.
Qed.

Lemma lattice_flipped a n m : lattice a -> site a n m -> lattice (flipped a n m).
Proof.
  intros Ha Hs. split; [apply valid_with_cell, Ha|].
  unfold spins, flipped, with_cell. cbn [data].
  apply Forall_insert; [apply Ha|].
  rewrite int64_neg_spin by (by apply cell_spin).
  destruct (cell_spin a n m Ha Hs) as [-> | ->]; [by right | by left].
Qed.

Lemma dE_of_lattice a n m :
  lattice a -> site a n m ->
  dE_of a n m = 2 * cell a n m * stencil_sum a n m /\ -16 <= dE_of a n m <= 16.
Proof.
  intros Ha Hs.
  assert (0 < shape0 a /\ 0 < shape1 a) as [HN HM] by (destruct Hs; lia).
  pose proof (stencil_sum_bound a n m Ha HN HM) as Hb.
  rewrite dE_of_stencil.
  destruct (cell_spin a n m Ha Hs) as [-> | ->]; rewrite int64_small; lia.
Qed.

(** ** The Metropolis rule (C1) *)

Section Metropolis.
Context `{Platform}.


End Metropolis.


(** ** The sweep on the array alone *)

Section Sweep.
Context `{Platform}.
Implicit Types (a : ndarray) (s : state) (field : loc) (r : rng spec_float).

Lemma metropolis_cases a n m beta r :
  (metropolis a n m beta r).1 = a \/ (metropolis a n m beta r).1 = flipped a n m.
Proof.
  unfold metropolis. destruct (dE_of a n m <=? 0); [by right|].
  cbn [draw]. destruct (accepts _ _ _); [by right | by left].
Qed.

Lemma metropolis_shape a n m beta r :
  shape0 (metropolis a n m beta r).1 = shape0 a /\
  shape1 (metropolis a n m beta r).1 = shape1 a.
Proof. by destruct (metropolis_cases a n m beta r) as [-> | ->]. Qed.

Lemma site_update_state field a n m beta s :
  heap s !! field = Some a ->
  site_update field n m beta s
  = State (<[field := (metropolis a n m beta (np_random s)).1]> (heap s))
          (metropolis a n m beta (np_random s)).2 (libc_rand s).
Proof.
  intros E. unfold site_update. rewrite E.
  by destruct (metropolis a n m beta (np_random s)).
Qed.

(** The sweep on the store is the sweep on the array at [field] and on the
    generator of [np.random]; nothing else in the store changes. *)
Lemma sweep_state field beta sites a s :
  heap s !! field = Some a ->
  sweep field beta sites s
  = State (<[field := (lattice_sweep beta sites (a, np_random s)).1]> (heap s))
          (lattice_sweep beta sites (a, np_random s)).2 (libc_rand s).
Proof.
  revert a s. induction sites as [|[n m] sites IH]; intros a s E.
  - cbn. rewrite insert_id by done. by destruct s.
  - cbn [sweep lattice_sweep foldl fst snd].
    fold (sweep field beta sites (site_update field n m beta s)).
    fold (lattice_sweep beta sites (metropolis a n m beta (np_random s))).
    rewrite (site_update_state field a n m beta s E).
    erewrite IH by (cbn [heap]; apply lookup_insert_eq).
    cbn [heap np_random libc_rand]. rewrite insert_insert_eq.
    by destruct (metropolis a n m beta (np_random s)).
Qed.

(** What a sweep preserves: any property of arrays that a flip at one of
    the swept sites preserves, together with the dimensions. *)
Lemma lattice_sweep_inv (Q : ndarray -> Prop) beta N M sites a r :
  (forall a n m, (n, m) ∈ sites -> Q a -> site a n m -> Q (flipped a n m)) ->
  Q a -> shape0 a = N -> shape1 a = M ->
  Forall (fun p => 0 <= p.1 < N /\ 0 <= p.2 < M) sites ->
  Q (lattice_sweep beta sites (a, r)).1 /\
  shape0 (lattice_sweep beta sites (a, r)).1 = N /\
  shape1 (lattice_sweep beta sites (a, r)).1 = M.
Proof.
  intros HQ Ha HN HM Hsites. revert a r HQ Ha HN HM.
  induction Hsites as [|[n m] sites Hp _ IH]; intros a r HQ Ha HN HM; [done|].
  cbn [lattice_sweep foldl fst snd].
  fold (lattice_sweep beta sites (metropolis a n m beta r)).
  destruct (metropolis_shape a n m beta r) as [E0 E1].
  assert (Q (metropolis a n m beta r).1) as Ha'.
  { destruct (metropolis_cases a n m beta r) as [-> | ->]; [done|].
    apply HQ; [by left|done|]. unfold site. cbn in Hp. lia. }
  destruct (metropolis a n m beta r) as [a' r']. cbn [fst] in *.
  apply IH; [|done|congruence..].
  intros a0 n0 m0 Hin. apply HQ. by right.
Qed.

End Sweep.

Lemma pass_sites_elem N M p q n m :
  (n, m) ∈ pass_sites N M p q <->
  (p <= n < N /\ (n - p) mod 2 = 0) /\ (q <= m < M /\ (m - q) mod 2 = 0).
Proof.
  unfold pass_sites. rewrite list_elem_of_bind. split.
  - intros (n' & Hm & Hn). apply list_elem_of_bind in Hm as (m' & Hnm & Hm).
    apply list_elem_of_singleton in Hnm as [= -> ->].
    by apply range_step_2_elem in Hn, Hm.
  - intros [Hn Hm]. exists n. split; [|by apply range_step_2_elem].
    apply list_elem_of_bind. exists m. split; [|by apply range_step_2_elem].
    by apply list_elem_of_singleton.
Qed.

Lemma step_sites_eq N M :
  step_sites N M
  = pass_sites N M 0 0 ++ pass_sites N M 0 1 ++ pass_sites N M 1 0 ++ pass_sites N M 1 1.
Proof.
  unfold step_sites. rewrite range_0_2. cbn [mbind list_bind].
  by rewrite !app_nil_r, <-app_assoc.
Qed.

Lemma step_sites_elem N M n m :
  (n, m) ∈ step_sites N M <-> 0 <= n < N /\ 0 <= m < M.
Proof.
  rewrite step_sites_eq, !elem_of_app, !pass_sites_elem. split.
  - intros [H|[H|[H|H]]]; lia.
  - intros [Hn Hm].
    assert ((n - 0) mod 2 = 0 \/ (n - 1) mod 2 = 0 /\ 1 <= n) as [Hn2|Hn2]
      by (Z.div_mod_to_equations; lia);
    assert ((m - 0) mod 2 = 0 \/ (m - 1) mod 2 = 0 /\ 1 <= m) as [Hm2|Hm2]
      by (Z.div_mod_to_equations; lia).
    + left. lia.
    + right; left. lia.
    + right; right; left. lia.
    + right; right; right. lia.
Qed.

Lemma step_sites_Forall N M :
  Forall (fun p => 0 <= p.1 < N /\ 0 <= p.2 < M) (step_sites N M).
Proof. apply Forall_forall. intros [n m] Hp. by apply step_sites_elem. Qed.

(** ** The Cython step *)

Section CythonLoops.
Context `{Platform}.
Implicit Types (a : ndarray) (s : state) (field : loc).

Lemma cy_metropolis_cases a n m beta (r : rng Z) :
  (cy_metropolis a n m beta r).1 = a \/ (cy_metropolis a n m beta r).1 = flipped a n m.
Proof.
  unfold cy_metropolis. destruct (SFleb _ _); [by right|].
  cbn [draw]. destruct (cy_accepts _ _ _); [by right | by left].
Qed.

Lemma cy_sublattice_pass_run field N M p q beta s :
  0 <= p -> 0 <= q -> N < 2 ^ 31 -> M < 2 ^ 31 -> holds field N M s ->
  cy_sublattice_pass field N M p q beta s
    = Some (tt, cy_sweep field beta (pass_sites N M p q) s) /\
  holds field N M (cy_sweep field beta (pass_sites N M p q) s).
Proof.
  intros Hp Hq HN HM Hs. unfold cy_sublattice_pass, pass_sites.
  apply (for_cy_sweep field beta (holds field N M) (fun n => 0 <= n < N)); [|
    apply Forall_forall; intros n Hn%range_step_2_elem; lia | done].
  clear s Hs. intros n s Hn Hs.
  apply (for_cy_sweep field beta (holds field N M) (fun m => 0 <= m < M)); [|
    apply Forall_forall; intros m Hm%range_step_2_elem; lia | done].
  clear s Hs. intros m s Hm Hs. cbn [cy_sweep foldl fst snd]. split.
  - destruct Hs as (a & E & Hv & <- & <-). by eapply cy_ising_update_run.
  - by apply cy_site_update_holds.
Qed.

Lemma cy_four_passes_run field N M beta s :
  N < 2 ^ 31 -> M < 2 ^ 31 -> holds field N M s ->
  for_ (range 0 2) (fun n_offset =>
    for_ (range 0 2) (fun m_offset =>
      cy_sublattice_pass field N M n_offset m_offset beta)) s
    = Some (tt, cy_sweep field beta (step_sites N M) s) /\
  holds field N M (cy_sweep field beta (step_sites N M) s).
Proof.
  intros HN HM Hs. unfold step_sites.
  apply (for_cy_sweep field beta (holds field N M) (fun p => 0 <= p)); [|
    rewrite range_0_2; repeat constructor; lia | done].
  clear s Hs. intros p s Hp Hs.
  apply (for_cy_sweep field beta (holds field N M) (fun q => 0 <= q)); [|
    rewrite range_0_2; repeat constructor; lia | done].
  clear s Hs. intros q s Hq Hs. by apply cy_sublattice_pass_run.
Qed.

(** What a Cython sweep preserves, and where it writes. *)
Lemma cy_sweep_inv (Q : ndarray -> Prop) field beta sites a s :
  (forall a n m, Q a -> site a n m -> Q (flipped a n m)) ->
  heap s !! field = Some a -> Q a ->
  Forall (fun p => 0 <= p.1 < shape0 a /\ 0 <= p.2 < shape1 a) sites ->
  exists a',
    heap (cy_sweep field beta sites s) = <[field := a']> (heap s) /\
    np_random (cy_sweep field beta sites s) = np_random s /\
    Q a' /\ shape0 a' = shape0 a /\ shape1 a' = shape1 a.
Proof.
  intros HQ E Ha Hsites. revert a s E Ha Hsites.
  induction sites as [|[n m] sites IH]; intros a s E Ha Hsites.
  - exists a. cbn. by rewrite insert_id.
  - apply Forall_cons in Hsites as [Hnm Hsites]. cbn [fst snd] in Hnm.
    cbn [cy_sweep foldl fst snd].
    fold (cy_sweep field beta sites (cy_site_update field n m beta s)).
    set (a1 := (cy_metropolis a n m beta (libc_rand s)).1).
    assert (Q a1 /\ shape0 a1 = shape0 a /\ shape1 a1 = shape1 a) as (Ha1 & E0 & E1).
    { unfold a1. destruct (cy_metropolis_cases a n m beta (libc_rand s)) as [-> | ->];
        [done|]. split; [|done]. by apply HQ. }
    assert (heap (cy_site_update field n m beta s) = <[field := a1]> (heap s) /\
            np_random (cy_site_update field n m beta s) = np_random s) as [Eh Er].
    { unfold cy_site_update, a1. rewrite E.
      by destruct (cy_metropolis a n m beta (libc_rand s)). }
    destruct (IH a1 (cy_site_update field n m beta s)) as (a' & Eh' & Er' & Ha' & E0' & E1').
    { rewrite Eh. apply lookup_insert_eq. }
    { done. }
    { by rewrite E0, E1. }
    exists a'. rewrite Eh', Eh, insert_insert_eq, Er', Er.
    repeat split; [done|congruence..].
Qed.

Lemma cy_ising_step_run field a beta s :
  heap s !! field = Some a -> valid a -> fits_int a ->
  cy_ising_step field beta s
  = np_array field (cy_sweep field beta (step_sites (shape0 a) (shape1 a)) s).
Proof.
  intros E Hv [F0 F1]. unfold cy_ising_step.
  erewrite bind_run by (by apply shape_run). cbn beta iota zeta.
  destruct Hv as (HN & HM & Hlen).
  rewrite !int32_small by lia.
  destruct (cy_four_passes_run field (shape0 a) (shape1 a) beta s) as [E' _];
    [done|done|by exists a|].
  by erewrite bind_run by exact E'.
Qed.

End CythonLoops.

(** ** Runs of several steps (C4, C7) *)

Section Runs.
Context `{Platform}.
Implicit Types (a : ndarray) (s : state) (field : loc) (r : rng spec_float).

Lemma lattice_step_inv (Q : ndarray -> Prop) beta a r :
  (forall a n m, Q a -> site a n m -> Q (flipped a n m)) ->
  Q a ->
  Q (lattice_sweep beta (step_sites (shape0 a) (shape1 a)) (a, r)).1 /\
  shape0 (lattice_sweep beta (step_sites (shape0 a) (shape1 a)) (a, r)).1 = shape0 a /\
  shape1 (lattice_sweep beta (step_sites (shape0 a) (shape1 a)) (a, r)).1 = shape1 a.
Proof.
  intros HQ Ha.
  apply (lattice_sweep_inv Q beta (shape0 a) (shape1 a));
    [intros a0 n m _; apply HQ | done.. | apply step_sites_Forall].
Qed.

Lemma lattice_run_S K beta ar :
  lattice_run (S K) beta ar
  = lattice_run K beta (lattice_sweep beta (step_sites (shape0 ar.1) (shape1 ar.1)) ar).
Proof. unfold lattice_run. by rewrite Nat.iter_succ_r. Qed.

Lemma lattice_run_inv (Q : ndarray -> Prop) K beta a r :
  (forall a n m, Q a -> site a n m -> Q (flipped a n m)) ->
  Q a ->
  Q (lattice_run K beta (a, r)).1 /\
  shape0 (lattice_run K beta (a, r)).1 = shape0 a /\
  shape1 (lattice_run K beta (a, r)).1 = shape1 a.
Proof.
  intros HQ. revert a r. induction K as [|K IH]; intros a r Ha; [done|].
  rewrite lattice_run_S. cbn [fst].
  destruct (lattice_step_inv Q beta a r HQ Ha) as (Ha' & E0 & E1).
  destruct (lattice_sweep beta _ (a, r)) as [a' r']. cbn [fst] in *.
  destruct (IH a' r' Ha') as (? & ? & ?). split; [done|]. split; congruence.
Qed.

(** One step on the store is one sweep of the array over [step_sites]. *)
Lemma ising_step_state field a beta s :
  heap s !! field = Some a -> valid a ->
  ising_step field beta s
  = Some (field,
      State (<[field := (lattice_sweep beta (step_sites (shape0 a) (shape1 a))
                           (a, np_random s)).1]> (heap s))
            (lattice_sweep beta (step_sites (shape0 a) (shape1 a)) (a, np_random s)).2
            (libc_rand s)).
Proof.
  intros E Hv. rewrite (ising_step_run field a beta s E Hv).
  by rewrite (sweep_state field beta _ a s E).
Qed.

(** [K] steps on the store are [K] sweeps of the array; they return the
    reference they were given. *)
Lemma ising_run_state K field a beta s :
  heap s !! field = Some a -> valid a ->
  ising_run K field beta s
  = Some (field,
      State (<[field := (lattice_run K beta (a, np_random s)).1]> (heap s))
            (lattice_run K beta (a, np_random s)).2 (libc_rand s)).
Proof.
  revert a s. induction K as [|K IH]; intros a s E Hv.
  - cbn. rewrite insert_id by done. by destruct s.
  - cbn [ising_run]. erewrite bind_run by (by apply ising_step_state).
    rewrite lattice_run_S. cbn [fst].
    destruct (lattice_step_inv valid beta a (np_random s)) as (Hv' & _); [|done|].
    { intros. by apply valid_flipped. }
    destruct (lattice_sweep beta _ (a, np_random s)) as [a' r'] eqn:Esw.
    cbn [fst snd] in *.
    erewrite IH; [|cbn [heap]; apply lookup_insert_eq|done].
    cbn [heap np_random libc_rand]. by rewrite insert_insert_eq.
Qed.

(** The value domain under the Cython kernel: every array a run returns
    is a lattice of spins of the same dimensions. *)
Lemma cy_value_domain K field a beta s :
  heap s !! field = Some a -> lattice a -> fits_int a ->
  exists l s' a',
    cy_ising_run K field beta s = Some (l, s') /\
    heap s' !! l = Some a' /\ lattice a' /\
    shape0 a' = shape0 a /\ shape1 a' = shape1 a.
Proof.
  revert field a s. induction K as [|K IH]; intros field a s E Ha Hf.
  - by exists field, s, a.
  - cbn [cy_ising_run].
    destruct (cy_sweep_inv lattice field beta (step_sites (shape0 a) (shape1 a)) a s)
      as (a1 & Eh & _ & Ha1 & E0 & E1);
      [by apply lattice_flipped|done|done|apply step_sites_Forall|].
    set (sw := cy_sweep field beta (step_sites (shape0 a) (shape1 a)) s) in *.
    set (l1 := fresh (dom (heap sw))).
    set (s1 := set_heap (<[l1 := a1]> (heap sw)) sw).
    assert (cy_ising_step field beta s = Some (l1, s1)) as Hstep.
    { rewrite (cy_ising_step_run field a beta s E (proj1 Ha) Hf). unfold np_array.
      fold sw. unfold s1, l1. rewrite Eh, lookup_insert_eq. reflexivity. }
    destruct (IH l1 a1 s1) as (l & s' & a' & Hrun & Hl & Ha' & E0' & E1').
    { unfold s1. cbn [set_heap heap]. apply lookup_insert_eq. }
    { exact Ha1. }
    { destruct Hf. split; congruence. }
    exists l, s', a'. rewrite (bind_run _ _ _ _ _ Hstep).
    split; [exact Hrun|]. split; [exact Hl|]. split; [exact Ha'|].
    split; congruence.
Qed.

(** C4: from a lattice whose cells are all [-1] or [+1], any number of
    steps ends and every cell of the lattice is still [-1] or [+1]: with
    [ising_step] on the array it was given, with [cy_ising_step] on the
    array the last step returned. *)
Theorem value_domain K field a beta s :
  heap s !! field = Some a -> valid a -> spins a ->
  (exists s' a',
     ising_run K field beta s = Some (field, s') /\
     heap s' !! field = Some a' /\
     shape0 a' = shape0 a /\ shape1 a' = shape1 a /\
     valid a' /\
     Forall (fun c => c = -1 \/ c = 1) (data a')) /\
  (fits_int a ->
   exists l s' a',
     cy_ising_run K field beta s = Some (l, s') /\
     heap s' !! l = Some a' /\
     shape0 a' = shape0 a /\ shape1 a' = shape1 a /\
     valid a' /\
     Forall (fun c => c = -1 \/ c = 1) (data a')).
Proof.
  intros E Hv Hsp. split.
  - destruct (lattice_run_inv lattice K beta a (np_random s))
      as ([Hv' Hsp'] & E0 & E1); [by apply lattice_flipped|done|].
    eexists _, _. split; [by apply ising_run_state|].
    cbn [heap]. rewrite lookup_insert_eq. done.
  - intros Hf.
    destruct (cy_value_domain K field a beta s E (conj Hv Hsp) Hf)
      as (l & s' & a' & Hrun & Hl & [Hv' Hsp'] & E0 & E1).
    by exists l, s', a'.
Qed.

(** C7: two runs of [K] steps from equal lattices and equal states of the
    random stream end with equal lattices and equal states of the stream,
    wherever the two lattices live and whatever else the two stores hold. *)
Theorem determinism K field1 field2 a beta s1 s2 :
  heap s1 !! field1 = Some a -> heap s2 !! field2 = Some a -> valid a ->
  np_random s1 = np_random s2 ->
  exists s1' s2' a',
    ising_run K field1 beta s1 = Some (field1, s1') /\
    ising_run K field2 beta s2 = Some (field2, s2') /\
    heap s1' !! field1 = Some a' /\
    heap s2' !! field2 = Some a' /\
    np_random s1' = np_random s2'.
Proof.
  intros E1 E2 Hv Hr.
  eexists _, _, _. split; [by apply ising_run_state|].
  split; [by apply ising_run_state|].
  cbn [heap np_random]. rewrite !lookup_insert_eq, Hr. done.
Qed.

End Runs.

Lemma value_domain_witness :
  heap (store_of corner3) !! 1%positive = Some corner3 /\
  valid corner3 /\ spins corner3 /\ fits_int corner3 /\
  (exists s' a',
     @ising_run example_platform 2 1%positive half (store_of corner3)
       = Some (1%positive, s') /\
     heap s' !! 1%positive = Some a' /\
     Forall (fun c => c = -1 \/ c = 1) (data a')) /\
  (exists l s' a',
     @cy_ising_run example_platform 2 1%positive half (store_of corner3)
       = Some (l, s') /\
     heap s' !! l = Some a' /\
     Forall (fun c => c = -1 \/ c = 1) (data a')).
Proof.
  assert (fits_int corner3) as Hf by (split; reflexivity).
  refine (conj eq_refl (conj valid_corner3 (conj spins_corner3 (conj Hf _)))).
  destruct (@value_domain example_platform 2 1%positive corner3 half
              (store_of corner3) eq_refl valid_corner3 spins_corner3)
    as [Hpy Hcy].
  split.
  - destruct Hpy as (s' & a' & Hrun & Hheap & _ & _ & _ & Hsp).
    exists s', a'. exact (conj Hrun (conj Hheap Hsp)).
  - destruct (Hcy Hf) as (l & s' & a' & Hrun & Hheap & _ & _ & _ & Hsp).
    exists l, s', a'. exact (conj Hrun (conj Hheap Hsp)).
Defined.

Lemma determinism_witness :
  heap (store_of corner3) !! 1%positive = Some corner3 /\
  heap other_store !! 2%positive = Some corner3 /\
  valid corner3 /\ np_random (store_of corner3) = np_random other_store /\
  exists s1' s2' a',
    @ising_run example_platform 3 1%positive half (store_of corner3)
      = Some (1%positive, s1') /\
    @ising_run example_platform 3 2%positive half other_store
      = Some (2%positive, s2') /\
    heap s1' !! 1%positive = Some a' /\
    heap s2' !! 2%positive = Some a' /\
    np_random s1' = np_random s2'.
Proof.
  refine (conj eq_refl (conj eq_refl (conj valid_corner3 (conj eq_refl _)))).
  exact (@determinism example_platform 3 1%positive 2%positive corner3 half
           (store_of corner3) other_store eq_refl eq_refl valid_corner3 eq_refl).
Defined.

(** ** What a call and a pass leave alone (C8) *)

Lemma range_0_2_elem p : p ∈ range 0 2 <-> p = 0 \/ p = 1.
Proof. unfold range. rewrite elem_of_seqZ. lia. Qed.

Lemma pass_sites_parity N M p q n m :
  p ∈ range 0 2 -> q ∈ range 0 2 ->
  (n, m) ∈ pass_sites N M p q -> parity (n, m) = (p, q).
Proof.
  intros Hp%range_0_2_elem Hq%range_0_2_elem [[_ Hn] [_ Hm]]%pass_sites_elem.
  unfold parity. cbn [fst snd].
  f_equal; Z.div_mod_to_equations; lia.
Qed.

Lemma pass_sites_Forall N M p q :
  0 <= p -> 0 <= q ->
  Forall (fun x => 0 <= x.1 < N /\ 0 <= x.2 < M) (pass_sites N M p q).
Proof.
  intros Hp Hq. apply Forall_forall. intros [n m] Hx%pass_sites_elem.
  cbn [fst snd]. lia.
Qed.

Section Frame.
Context `{Platform}.
Implicit Types (a : ndarray) (s : state) (field : loc) (r : rng spec_float).

(** A sweep leaves every site it does not visit as it was. *)
Lemma lattice_sweep_frame beta sites a r i j :
  site a i j -> (i, j) ∉ sites ->
  Forall (fun p => 0 <= p.1 < shape0 a /\ 0 <= p.2 < shape1 a) sites ->
  cell (lattice_sweep beta sites (a, r)).1 i j = cell a i j.
Proof.
  intros Hs Hnot Hsites.
  destruct (lattice_sweep_inv
    (fun a' => shape0 a' = shape0 a /\ shape1 a' = shape1 a /\ cell a' i j = cell a i j)
    beta (shape0 a) (shape1 a) sites a r) as [(_ & _ & Hc) _]; try done.
  intros a' n m Hin (E0 & E1 & Hc) Hs'. split; [done|]. split; [done|].
  rewrite <-Hc. apply cell_with_cell_ne; [done| |].
  - unfold site. rewrite E0, E1. apply Hs.
  - intros [= -> ->]. done.
Qed.

(** C8: a call of the evaluator at site [(n, m)] changes at most the cell
    [(n, m)] of the array it is given and nothing else in the store; so the
    pass over one parity class, the class [(0, 0)] among them, leaves every
    cell of the three other classes as it was. *)
Theorem update_frame field a n m beta s :
  heap s !! field = Some a -> valid a -> site a n m ->
  (exists s' a',
     _ising_update field n m beta s = Some (tt, s') /\
     heap s' = <[field := a']> (heap s) /\
     libc_rand s' = libc_rand s /\
     shape0 a' = shape0 a /\ shape1 a' = shape1 a /\
     length (data a') = length (data a) /\
     forall k, k <> offset a n m -> data a' !! k = data a !! k) /\
  (forall p q, p ∈ range 0 2 -> q ∈ range 0 2 ->
   exists s' a',
     sublattice_pass field (shape0 a) (shape1 a) p q beta s = Some (tt, s') /\
     heap s' = <[field := a']> (heap s) /\
     forall i j, site a i j -> parity (i, j) <> (p, q) -> cell a' i j = cell a i j).
Proof.
  intros E Hv Hs. split.
  - eexists _, _. split; [by eapply ising_update_run|].
    rewrite (site_update_state field a n m beta s E).
    cbn [heap libc_rand]. split; [done|]. split; [done|].
    destruct (metropolis_cases a n m beta (np_random s)) as [-> | ->];
      [done|].
    unfold flipped. cbn [with_cell shape0 shape1 data].
    rewrite length_insert. repeat split. intros k Hk.
    by rewrite list_lookup_insert_ne.
  - intros p q Hp Hq.
    assert (0 <= p /\ 0 <= q) as [Hp0 Hq0]
      by (apply range_0_2_elem in Hp, Hq; lia).
    destruct (sublattice_pass_run field (shape0 a) (shape1 a) p q beta s Hp0 Hq0)
      as [Hrun _]; [by exists a|].
    eexists _, _. split; [exact Hrun|].
    rewrite (sweep_state field beta _ a s E). cbn [heap]. split; [done|].
    intros i j Hij Hpar. apply lattice_sweep_frame; [done| |by apply pass_sites_Forall].
    intros Hin. by apply Hpar, (pass_sites_parity (shape0 a) (shape1 a)).
Qed.

End Frame.

Lemma update_frame_witness :
  heap (store_of corner3) !! 1%positive = Some corner3 /\
  valid corner3 /\ site corner3 0 0 /\
  exists s' a',
    @sublattice_pass example_platform 1%positive 3 3 0 0 half (store_of corner3)
      = Some (tt, s') /\
    heap s' = <[1%positive := a']> (heap (store_of corner3)) /\
    cell a' 1 1 = 1 /\ cell a' 0 1 = 1 /\ cell a' 1 0 = 1.
Proof.
  assert (site corner3 0 0) as Hsite by (unfold site; cbn; lia).
  refine (conj eq_refl (conj valid_corner3 (conj Hsite _))).
  destruct (@update_frame example_platform 1%positive corner3 0 0 half
              (store_of corner3) eq_refl valid_corner3 Hsite) as [_ Hpass].
  destruct (Hpass 0 0) as (s' & a' & Hrun & Hheap & Hother).
  { by apply (bool_decide_unpack _). }
  { by apply (bool_decide_unpack _). }
  exists s', a'. split; [exact Hrun|]. split; [exact Hheap|].
  assert (forall i j, 0 <= i < 3 /\ 0 <= j < 3 -> site corner3 i j) as Hs
    by (intros i j Hij; exact Hij).
  split; [|split].
  - rewrite (Hother 1 1); [reflexivity | apply Hs; lia | discriminate].
  - rewrite (Hother 0 1); [reflexivity | apply Hs; lia | discriminate].
  - rewrite (Hother 1 0); [reflexivity | apply Hs; lia | discriminate].
Defined.

(** ** Independence of the sites of one pass (C5) *)

Lemma neighbors_elem N M n m c :
  c ∈ neighbors N M n m <->
  exists di dj, (di = -1 \/ di = 0 \/ di = 1) /\ (dj = -1 \/ dj = 0 \/ dj = 1) /\
                (di, dj) <> (0, 0) /\ c = ((n + di) mod N, (m + dj) mod M).
Proof.
  unfold neighbors, neighbor_offsets. cbn [fmap list_fmap fst snd].
  rewrite !elem_of_cons, elem_of_nil. split.
  - intros Hc.
    repeat (destruct Hc as [-> | Hc]; [|]); [..|done];
      [exists (-1), (-1)|exists (-1), 0|exists (-1), 1|exists 0, (-1)
      |exists 0, 1|exists 1, (-1)|exists 1, 0|exists 1, 1];
      (split; [lia|]); (split; [lia|]); (split; [done|]);
      f_equal; f_equal; lia.
  - intros (di & dj & Hdi & Hdj & Hne & ->).
    destruct Hdi as [-> | [-> | ->]], Hdj as [-> | [-> | ->]]; try done;
      rewrite ?Z.add_0_r; change (n + -1) with (n - 1); change (m + -1) with (m - 1);
      tauto.
Qed.


Lemma range_step_2_NoDup p N : NoDup (range_step p N 2).
Proof.
  unfold range_step. apply NoDup_fmap_2; [|apply NoDup_seqZ].
  intros k1 k2 Hk. lia.
Qed.

Lemma pass_sites_NoDup N M p q : NoDup (pass_sites N M p q).
Proof.
  unfold pass_sites. apply NoDup_bind; [| |apply range_step_2_NoDup].
  - intros n1 n2 [n m] _ _ (? & [= -> ->]%list_elem_of_singleton & _)%list_elem_of_bind
      (? & [= -> _]%list_elem_of_singleton & _)%list_elem_of_bind. done.
  - intros n _. apply NoDup_bind; [| |apply range_step_2_NoDup].
    + by intros m1 m2 ? _ _ ->%list_elem_of_singleton [= ->]%list_elem_of_singleton.
    + intros. apply NoDup_singleton.
Qed.

Lemma stencil_sum_ext a a' n m :
  shape0 a' = shape0 a -> shape1 a' = shape1 a ->
  (forall c, c ∈ neighbors (shape0 a) (shape1 a) n m -> cell a' c.1 c.2 = cell a c.1 c.2) ->
  stencil_sum a' n m = stencil_sum a n m.
Proof.
  intros E0 E1 Hc. rewrite !stencil_sum_neighbors, E0, E1. f_equal.
  apply list_fmap_ext. intros k c Hk. apply Hc. by eapply list_elem_of_lookup_2.
Qed.

Section Independence.
Context `{Platform}.


End Independence.



(** ** The order of the visits (C3) *)














Lemma row_major_elem N M n m :
  (n, m) ∈ row_major N M <-> 0 <= n < N /\ 0 <= m < M.
Proof.
  unfold row_major. rewrite list_elem_of_bind. split.
  - intros (n' & (m' & [= -> ->]%list_elem_of_singleton & Hm%elem_of_seqZ)%list_elem_of_bind
              & Hn%elem_of_seqZ). lia.
  - intros [Hn Hm]. exists n. split; [|apply elem_of_seqZ; lia].
    apply list_elem_of_bind. exists m. split; [by apply list_elem_of_singleton|].
    apply elem_of_seqZ. lia.
Qed.

Lemma row_major_NoDup N M : NoDup (row_major N M).
Proof.
  unfold row_major. apply NoDup_bind; [| |apply NoDup_seqZ].
  - intros n1 n2 [n m] _ _ (? & [= -> ->]%list_elem_of_singleton & _)%list_elem_of_bind
      (? & [= -> _]%list_elem_of_singleton & _)%list_elem_of_bind. done.
  - intros n _. apply NoDup_bind; [| |apply NoDup_seqZ].
    + by intros m1 m2 ? _ _ ->%list_elem_of_singleton [= ->]%list_elem_of_singleton.
    + intros. apply NoDup_singleton.
Qed.


Lemma step_sites_NoDup N M : NoDup (step_sites N M).
Proof.
  rewrite step_sites_eq.
  assert (forall p q p' q' x, p ∈ range 0 2 -> q ∈ range 0 2 ->
            p' ∈ range 0 2 -> q' ∈ range 0 2 -> (p, q) <> (p', q') ->
            x ∈ pass_sites N M p q -> x ∉ pass_sites N M p' q') as Hdisj.
  { intros p q p' q' [n m] Hp Hq Hp' Hq' Hne Hin Hin'. apply Hne.
    by rewrite <-(pass_sites_parity N M p q n m), <-(pass_sites_parity N M p' q' n m). }
  assert (0 ∈ range 0 2 /\ 1 ∈ range 0 2) as [H0 H1]
    by (split; apply range_0_2_elem; lia).
  assert (forall p q p' q' l, p ∈ range 0 2 -> q ∈ range 0 2 ->
            p' ∈ range 0 2 -> q' ∈ range 0 2 -> (p, q) <> (p', q') ->
            (forall x, x ∈ pass_sites N M p q -> x ∉ l) ->
            forall x, x ∈ pass_sites N M p q -> x ∉ pass_sites N M p' q' ++ l) as Hmore.
  { intros p q p' q' l Hp Hq Hp' Hq' Hne Hl x Hx [Hx'|Hx']%elem_of_app.
    - by eapply (Hdisj p q p' q').
    - by eapply Hl. }
  apply NoDup_app. split; [apply pass_sites_NoDup|]. split.
  { do 2 (apply Hmore; [done..|]). rewrite <-(app_nil_r (pass_sites N M 1 1)).
    apply Hmore; [done..|]. intros x _. apply not_elem_of_nil. }
  apply NoDup_app. split; [apply pass_sites_NoDup|]. split.
  { apply Hmore; [done..|]. rewrite <-(app_nil_r (pass_sites N M 1 1)).
    apply Hmore; [done..|]. intros x _. apply not_elem_of_nil. }
  apply NoDup_app. split; [apply pass_sites_NoDup|]. split.
  { rewrite <-(app_nil_r (pass_sites N M 1 1)).
    apply Hmore; [done..|]. intros x _. apply not_elem_of_nil. }
  apply pass_sites_NoDup.
Qed.

Section Order.
Context `{Platform}.


End Order.

(** ** What the steps return (C6) *)

Section CythonStep.
Context `{Platform}.
Implicit Types (a : ndarray) (s : state) (field : loc).

(** C6, as the code has it: [ising_step] writes into the array it is given
    and returns that same reference; [cy_ising_step] writes into the array
    it is given as well, but returns [np.array(field)], a newly allocated
    array that holds a copy of the result. *)
Theorem step_result field a beta s :
  heap s !! field = Some a -> valid a ->
  returns_argument ising_step /\
  (exists s' a',
     ising_step field beta s = Some (field, s') /\
     heap s' = <[field := a']> (heap s) /\
     shape0 a' = shape0 a /\ shape1 a' = shape1 a) /\
  (fits_int a ->
   exists l s' a',
     cy_ising_step field beta s = Some (l, s') /\
     heap s !! l = None /\ l <> field /\
     heap s' = <[l := a']> (<[field := a']> (heap s)) /\
     shape0 a' = shape0 a /\ shape1 a' = shape1 a).
Proof.
  intros E Hv. split; [|split].
  - intros field' beta' s0 l s'. unfold ising_step, bind.
    destruct (shape field' s0) as [[[N M] s1]|]; [|done].
    destruct (for_ _ _ s1) as [[[] s2]|]; [|done]. unfold ret. by intros [= <- _].
  - destruct (lattice_step_inv valid beta a (np_random s)) as (_ & E0 & E1);
      [by intros; apply valid_flipped|done|].
    eexists _, _. split; [by apply ising_step_state|]. by cbn [heap].
  - intros Hf.
    destruct (cy_sweep_inv valid field beta (step_sites (shape0 a) (shape1 a)) a s)
      as (a' & Eh & _ & Hv' & E0 & E1);
      [by intros; apply valid_flipped|done|done|apply step_sites_Forall|].
    rewrite (cy_ising_step_run field a beta s E Hv Hf). unfold np_array.
    rewrite Eh, lookup_insert_eq. cbn [mbind option_bind].
    set (l := fresh (dom (<[field := a']> (heap s)))).
    assert (l ∉ dom (<[field := a']> (heap s))) as Hl by apply is_fresh.
    rewrite dom_insert_L in Hl.
    exists l, (set_heap (<[l := a']> (<[field := a']> (heap s)))
                 (cy_sweep field beta (step_sites (shape0 a) (shape1 a)) s)), a'.
    split; [done|]. split; [apply not_elem_of_dom; set_solver|].
    split; [set_solver|]. done.
Qed.

End CythonStep.

(** The claim for [cy_ising_step] fails: given the array at reference 1 it
    returns reference 2, which the store did not hold before. *)
Lemma cy_step_returns_copy :
  ~ returns_argument (@cy_ising_step example_platform) /\
  exists s',
    @cy_ising_step example_platform 1%positive half (store_of corner3)
      = Some (2%positive, s') /\
    heap (store_of corner3) !! 2%positive = None /\
    heap s' !! 2%positive = heap s' !! 1%positive.
Proof.
  assert (exists s',
    @cy_ising_step example_platform 1%positive half (store_of corner3)
      = Some (2%positive, s') /\
    heap (store_of corner3) !! 2%positive = None /\
    heap s' !! 2%positive = heap s' !! 1%positive) as Hrun.
  { eexists. split; [vm_compute; reflexivity|]. split; reflexivity. }
  split; [|exact Hrun].
  intros Hret. destruct Hrun as (s' & Hrun & _).
  by specialize (Hret _ _ _ _ _ Hrun).
Qed.

Lemma step_result_witness :
  heap (store_of corner3) !! 1%positive = Some corner3 /\ valid corner3 /\
  fits_int corner3 /\
  (exists s' a',
     @ising_step example_platform 1%positive half (store_of corner3)
       = Some (1%positive, s') /\
     heap s' = <[1%positive := a']> (heap (store_of corner3))) /\
  (exists l s' a',
     @cy_ising_step example_platform 1%positive half (store_of corner3)
       = Some (l, s') /\ l <> 1%positive /\
     heap s' = <[l := a']> (<[1%positive := a']> (heap (store_of corner3)))).
Proof.
  assert (fits_int corner3) as Hf by (split; reflexivity).
  refine (conj eq_refl (conj valid_corner3 (conj Hf _))).
  destruct (@step_result example_platform 1%positive corner3 half
              (store_of corner3) eq_refl valid_corner3) as (_ & Hpy & Hcy).
  split.
  - destruct Hpy as (s' & a' & Hrun & Hheap & _).
    exists s', a'. exact (conj Hrun Hheap).
  - destruct (Hcy Hf) as (l & s' & a' & Hrun & _ & Hl & Hheap & _).
    exists l, s', a'. exact (conj Hrun (conj Hl Hheap)).
Defined.

(** ** The Cython evaluator against the Python one (C9) *)

(** Every integer from -16 to 16 is a binary32 number, and comparing it
    with zero as a float is comparing it as an integer. *)
Lemma float_of_small_int z :
  -16 <= z <= 16 ->
  SF2Z (float_of_int z) = Some z /\
  SFleb (float_of_int z) (float_of_int 0) = (z <=? 0).
Proof.
  intros Hz.
  assert (Forall (fun z => SF2Z (float_of_int z) = Some z /\
                           SFleb (float_of_int z) (float_of_int 0) = (z <=? 0))
                 (seqZ (-16) 33)) as Hall.
  { apply (bool_decide_unpack _). vm_compute. exact I. }
  rewrite Forall_forall in Hall. apply Hall, elem_of_seqZ. lia.
Qed.

Lemma int32_small_sum x : -8 <= x <= 8 -> int32 x = x /\ int64 x = x.
Proof. intros. split; [apply int32_small|apply int64_small]; lia. Qed.

Lemma cy_total_of_lattice a n m :
  lattice a -> site a n m ->
  cy_total_of a n m = stencil_sum a n m /\ total_of a n m = stencil_sum a n m.
Proof.
  intros Ha Hs.
  assert (0 < shape0 a /\ 0 < shape1 a) as [HN HM] by (destruct Hs; lia).
  pose proof (stencil_sum_bound a n m Ha HN HM) as Hb.
  rewrite cy_total_of_stencil, total_of_stencil.
  by apply int32_small_sum.
Qed.

Lemma cy_dE_of_lattice a n m :
  lattice a -> site a n m -> cy_dE_of a n m = float_of_int (dE_of a n m).
Proof.
  intros Ha Hs. unfold cy_dE_of, dE_of.
  by destruct (cy_total_of_lattice a n m Ha Hs) as [-> ->].
Qed.

Section Agreement.
Context `{Platform}.

(** C9: on a lattice of spins both evaluators compute the same [total];
    the [float] the Cython one stores in [dE] has exactly the integer value
    the Python one computes, and tests [<= 0] alike; when [dE <= 0] both
    flip the spin, draw nothing, and leave the same store. *)
Theorem cython_agrees field a n m beta beta' s :
  heap s !! field = Some a -> valid a -> spins a -> fits_int a -> site a n m ->
  exists total dE dE_float,
    neighbor_total field n m s = Some (total, s) /\
    cy_neighbor_total field n m s = Some (total, s) /\
    local_dE field n m s = Some (dE, s) /\
    cy_local_dE field n m s = Some (dE_float, s) /\
    SF2Z dE_float = Some dE /\
    SFleb dE_float (float_of_int 0) = (dE <=? 0) /\
    (dE <= 0 ->
     _ising_update field n m beta s
       = Some (tt, set_heap (<[field := flipped a n m]> (heap s)) s) /\
     _cy_ising_update field n m beta' s
       = Some (tt, set_heap (<[field := flipped a n m]> (heap s)) s)).
Proof.
  intros E Hv Hsp Hf Hs.
  assert (lattice a) as Ha by done.
  assert (0 < shape0 a /\ 0 < shape1 a) as [HN HM] by (destruct Hs; lia).
  destruct (cy_total_of_lattice a n m Ha Hs) as [Hcy Hpy].
  destruct (dE_of_lattice a n m Ha Hs) as [_ Hb].
  destruct (float_of_small_int (dE_of a n m) Hb) as [Hexact Hleb].
  exists (stencil_sum a n m), (dE_of a n m), (float_of_int (dE_of a n m)).
  split; [by rewrite <-Hpy; apply neighbor_total_run|].
  split; [by rewrite <-Hcy; apply cy_neighbor_total_run|].
  split; [by apply local_dE_run|].
  split; [by rewrite <-cy_dE_of_lattice; [apply cy_local_dE_run|..]|].
  split; [done|]. split; [done|].
  intros Hle. split.
  - rewrite (ising_update_run field a n m beta s E Hv Hs).
    unfold site_update, metropolis. rewrite E.
    by rewrite (proj2 (Z.leb_le _ _) Hle).
  - rewrite (cy_ising_update_run field a n m beta' s E Hv Hf Hs).
    unfold cy_site_update, cy_metropolis. rewrite E.
    rewrite (cy_dE_of_lattice a n m Ha Hs), Hleb.
    by rewrite (proj2 (Z.leb_le _ _) Hle).
Qed.

(** The Metropolis rule of the Cython evaluator: no sample for [dE <= 0];
    otherwise exactly one [rand()], and a flip if and only if
    [exp(-dE * beta) * RAND_MAX > rand()]. *)
Lemma cy_metropolis_rule field a n m beta s :
  heap s !! field = Some a -> lattice a -> fits_int a -> site a n m ->
  exists dE s' a',
    cy_local_dE field n m s = Some (float_of_int dE, s) /\
    _cy_ising_update field n m beta s = Some (tt, s') /\
    heap s' = <[field := a']> (heap s) /\
    np_random s' = np_random s /\
    (dE <= 0 ->
       cell a' n m = - cell a n m /\ libc_rand s' = libc_rand s) /\
    (0 < dE ->
       let r := samples (libc_rand s) (drawn (libc_rand s)) in
       libc_rand s' = Rng (samples (libc_rand s)) (S (drawn (libc_rand s))) /\
       (cell a' n m = - cell a n m <->
        SFltb (double_of_int r)
              (double_mul (libc_exp (double_of_float
                             (float_mul (SFopp (float_of_int dE)) beta)))
                          (double_of_int RAND_MAX)) = true)).
Proof.
  intros E Ha Hf Hs. pose proof Ha as [Hv Hsp].
  destruct (dE_of_lattice a n m Ha Hs) as [_ Hb].
  destruct (float_of_small_int (dE_of a n m) Hb) as [_ Hleb].
  exists (dE_of a n m), (cy_site_update field n m beta s),
         (cy_metropolis a n m beta (libc_rand s)).1.
  split; [by rewrite <-cy_dE_of_lattice; [apply cy_local_dE_run|..]|].
  split; [by eapply cy_ising_update_run|].
  unfold cy_site_update, cy_metropolis. rewrite E.
  rewrite (cy_dE_of_lattice a n m Ha Hs), Hleb.
  destruct (Z.leb_spec (dE_of a n m) 0) as [Hle|Hgt].
  - cbn [fst heap np_random libc_rand]. repeat split; try done; try lia.
    by apply cell_flipped.
  - cbn [draw]. unfold cy_accepts.
    destruct (SFltb _ _) eqn:Hacc; cbn [fst heap np_random libc_rand];
      (split; [done|]); (split; [done|]); (split; [lia|]); intros _;
      (split; [done|]).
    + split; [done|]. intros _. by apply cell_flipped.
    + split; [|done]. intros Hc.
      destruct (cell_spin a n m Ha Hs); lia.
Qed.

End Agreement.

Lemma cython_agrees_witness :
  heap (store_of corner3) !! 1%positive = Some corner3 /\ valid corner3 /\
  spins corner3 /\ fits_int corner3 /\ site corner3 0 0 /\
  @_ising_update example_platform 1%positive 0 0 half (store_of corner3)
  = @_cy_ising_update example_platform 1%positive 0 0 half (store_of corner3).
Proof.
  assert (fits_int corner3) as Hf by (split; reflexivity).
  assert (site corner3 0 0) as Hsite by (unfold site; cbn; lia).
  refine (conj eq_refl (conj valid_corner3 (conj spins_corner3 (conj Hf (conj Hsite _))))).
  destruct (@cython_agrees example_platform 1%positive corner3 0 0 half half
              (store_of corner3) eq_refl valid_corner3 spins_corner3 Hf Hsite)
    as (total & dE & dEf & _ & _ & HdE & _ & _ & _ & Hle).
  assert (dE <= 0) as Hneg.
  { vm_compute in HdE. injection HdE as <-. discriminate. }
  destruct (Hle Hneg) as [-> ->]. reflexivity.
Defined.

(** ** Indices outside the lattice and empty lattices *)

Lemma norm_index_mod i dim :
  - dim <= i < dim -> norm_index i dim = Some (i mod dim).
Proof.
  intros Hi. unfold norm_index.
  destruct (Z.leb_spec 0 i), (Z.ltb_spec i dim); cbn [andb]; try lia.
  - by rewrite Z.mod_small by lia.
  - destruct (Z.leb_spec (- dim) i), (Z.ltb_spec i 0); cbn [andb]; try lia.
    f_equal. apply (Z.mod_unique_pos _ _ (-1)); lia.
Qed.

Lemma norm_index_out i dim :
  0 <= dim -> i < - dim \/ dim <= i -> norm_index i dim = None.
Proof.
  intros Hd Hi. unfold norm_index.
  destruct (Z.leb_spec 0 i), (Z.ltb_spec i dim); cbn [andb]; try lia;
    destruct (Z.leb_spec (- dim) i), (Z.ltb_spec i 0); cbn [andb]; try lia; done.
Qed.

Lemma getitem_norm field a i j s :
  heap s !! field = Some a -> valid a ->
  - shape0 a <= i < shape0 a -> - shape1 a <= j < shape1 a ->
  getitem field i j s = Some (cell a (i mod shape0 a) (j mod shape1 a), s).
Proof.
  intros E Hv Hi Hj. unfold getitem. rewrite E. cbn [mbind option_bind].
  rewrite (norm_index_mod i), (norm_index_mod j) by done. cbn [mbind option_bind].
  rewrite lookup_cell; [done..|]. apply mod_site; lia.
Qed.

Lemma setitem_norm field a i j v s :
  heap s !! field = Some a -> valid a ->
  - shape0 a <= i < shape0 a -> - shape1 a <= j < shape1 a ->
  setitem field i j v s
  = Some (tt, set_heap (<[field := with_cell a (i mod shape0 a) (j mod shape1 a) v]>
                          (heap s)) s).
Proof.
  intros E Hv Hi Hj. unfold setitem. rewrite E. cbn [mbind option_bind].
  rewrite (norm_index_mod i), (norm_index_mod j) by done. cbn [mbind option_bind].
  rewrite lookup_cell; [done..|]. apply mod_site; lia.
Qed.

Lemma getitem_out field a i j s :
  heap s !! field = Some a -> valid a ->
  i < - shape0 a \/ shape0 a <= i \/ j < - shape1 a \/ shape1 a <= j ->
  getitem field i j s = None.
Proof.
  intros E (HN & HM & _) Hout. unfold getitem. rewrite E. cbn [mbind option_bind].
  destruct (norm_index i (shape0 a)) as [i'|] eqn:Ei; [|done]. cbn [mbind option_bind].
  rewrite norm_index_out; [done..|].
  destruct Hout as [?|[?|Hj]]; [..|exact Hj];
    rewrite norm_index_out in Ei by (done || lia); done.
Qed.

Lemma neighbors_mod N M n m :
  neighbors N M (n mod N) (m mod M) = neighbors N M n m.
Proof.
  unfold neighbors, neighbor_offsets. cbn [fmap list_fmap fst snd].
  by rewrite !Zminus_mod_idemp_l, !Zplus_mod_idemp_l, !Z.mod_mod_divide
    by (exists 1; lia).
Qed.

Lemma total_of_mod a n m :
  total_of a (n mod shape0 a) (m mod shape1 a) = total_of a n m.
Proof. unfold total_of. by rewrite neighbors_mod. Qed.

Section Indices.
Context `{Platform}.
Implicit Types (a : ndarray) (s : state) (field : loc).

Lemma ising_update_run_norm field a n m beta s :
  heap s !! field = Some a -> valid a ->
  - shape0 a <= n < shape0 a -> - shape1 a <= m < shape1 a ->
  _ising_update field n m beta s
  = Some (tt, site_update field (n mod shape0 a) (m mod shape1 a) beta s).
Proof.
  intros E Hv Hn Hm.
  assert (local_dE field n m s
          = Some (dE_of a (n mod shape0 a) (m mod shape1 a), s)) as HdE.
  { unfold local_dE.
    erewrite bind_run by (apply neighbor_total_run; [done..|lia|lia]).
    erewrite bind_run by (by apply getitem_norm).
    unfold dE_of. by rewrite total_of_mod. }
  assert (flip field n m s
          = Some (tt, set_heap (<[field := flipped a (n mod shape0 a) (m mod shape1 a)]>
                                  (heap s)) s)) as Hflip.
  { unfold flip. erewrite bind_run by (by apply getitem_norm).
    by erewrite setitem_norm. }
  unfold _ising_update, site_update, metropolis. rewrite E.
  erewrite bind_run by exact HdE.
  destruct (dE_of a _ _ <=? 0); [exact Hflip|].
  unfold np_random_rand at 1. unfold bind. cbn [draw].
  fold (accepts (dE_of a (n mod shape0 a) (m mod shape1 a)) beta
          (samples (np_random s) (drawn (np_random s)))).
  destruct (accepts _ _ _).
  - unfold flip. erewrite bind_run by (by apply getitem_norm).
    by erewrite setitem_norm.
  - unfold ret, set_np_random. by rewrite insert_id.
Qed.

(** The evaluator takes its site as NumPy takes an index: a negative
    index counts from the end, so for [-N <= n < N] and [-M <= m < M] the
    call is the call at site [(n mod N, m mod M)]; any other index raises,
    although the neighbour reads themselves wrap. *)
Theorem evaluator_index field a n m beta s :
  heap s !! field = Some a -> valid a -> 0 < shape0 a -> 0 < shape1 a ->
  (- shape0 a <= n < shape0 a -> - shape1 a <= m < shape1 a ->
   _ising_update field n m beta s
     = _ising_update field (n mod shape0 a) (m mod shape1 a) beta s /\
   exists s', _ising_update field n m beta s = Some (tt, s')) /\
  (n < - shape0 a \/ shape0 a <= n \/ m < - shape1 a \/ shape1 a <= m ->
   _ising_update field n m beta s = None).
Proof.
  intros E Hv HN HM. split.
  - intros Hn Hm. rewrite (ising_update_run_norm field a n m beta s E Hv Hn Hm).
    rewrite (ising_update_run field a _ _ beta s E Hv (mod_site a n m HN HM)).
    split; [done|]. by eexists.
  - intros Hout. unfold _ising_update, local_dE.
    rewrite bind_assoc.
    erewrite bind_run by (by apply neighbor_total_run).
    rewrite bind_assoc. unfold bind at 1.
    by rewrite (getitem_out field a n m s E Hv Hout).
Qed.

(** On an array with no rows or no columns a step calls the evaluator
    nowhere: [ising_step] returns its argument and leaves the store and
    both generators as they were, [cy_ising_step] only adds the copy it
    returns; a direct call of the evaluator raises (the modulo divides by
    zero). *)
Theorem empty_lattice field a beta s :
  heap s !! field = Some a -> shape0 a = 0 \/ shape1 a = 0 ->
  ising_step field beta s = Some (field, s) /\
  cy_ising_step field beta s
    = Some (fresh (dom (heap s)),
            set_heap (<[fresh (dom (heap s)) := a]> (heap s)) s) /\
  (forall n m, _ising_update field n m beta s = None) /\
  (forall n m, _cy_ising_update field n m beta s = None).
Proof.
  intros E Hz.
  assert (forall (f : Z -> Comp unit) xs s0,
            (forall x s1, f x s1 = Some (tt, s1)) -> for_ xs f s0 = Some (tt, s0)) as Hskip.
  { intros f xs s0 Hf. induction xs as [|x xs IH]; [done|].
    cbn [for_]. by rewrite (bind_run _ _ _ _ _ (Hf x s0)). }
  assert (forall N M (upd : Z -> Z -> Comp unit) p q s0, N = 0 \/ M = 0 ->
            p ∈ range 0 2 -> q ∈ range 0 2 ->
            for_ (range_step p N 2) (fun n => for_ (range_step q M 2) (fun m => upd n m)) s0
            = Some (tt, s0)) as Hpass.
  { intros N M upd p q s0 [-> | ->] Hp%range_0_2_elem Hq%range_0_2_elem.
    - by destruct Hp as [-> | ->].
    - apply Hskip. intros n s1. by destruct Hq as [-> | ->]. }
  assert (forall N M (upd : Z -> Z -> Comp unit) s0, N = 0 \/ M = 0 ->
            for_ (range 0 2) (fun p => for_ (range 0 2) (fun q =>
              for_ (range_step p N 2) (fun n => for_ (range_step q M 2) (fun m => upd n m)))) s0
            = Some (tt, s0)) as Hstep.
  { intros N M upd s0 HNM. rewrite range_0_2. cbn [for_].
    assert (0 ∈ range 0 2 /\ 1 ∈ range 0 2) as [H0 H1]
      by (split; apply range_0_2_elem; lia).
    repeat (rewrite bind_assoc || rewrite bind_ret
            || erewrite bind_run by (by apply Hpass)).
    done. }
  split; [|split; [|split]].
  - unfold ising_step. erewrite bind_run by (by apply shape_run). cbn beta iota.
    unfold sublattice_pass. by erewrite bind_run by (by apply Hstep).
  - unfold cy_ising_step. erewrite bind_run by (by apply shape_run).
    cbn beta iota zeta. unfold cy_sublattice_pass.
    erewrite bind_run; cycle 1.
    { apply Hstep. destruct Hz as [-> | ->]; [by left | by right]. }
    unfold np_array. by rewrite E.
  - intros n m. unfold _ising_update, local_dE, neighbor_total.
    rewrite !bind_assoc. erewrite bind_run by (by apply shape_run).
    cbn beta iota. rewrite !range_3. cbn [for_acc].
    rewrite (proj2 (Z.eqb_neq (n - 1) n)) by lia. cbn [andb].
    rewrite !bind_assoc. unfold bind at 1, py_mod at 1.
    destruct Hz as [-> | Hz]; [done|].
    destruct (shape0 a =? 0); [done|]. cbn [ret].
    unfold bind at 1, py_mod at 1. by rewrite Hz.
  - intros n m. unfold _cy_ising_update, cy_local_dE, cy_neighbor_total.
    rewrite !bind_assoc. erewrite bind_run by (by apply shape_run).
    cbn beta iota zeta. rewrite !range_3. cbn [for_acc].
    rewrite (proj2 (Z.eqb_neq (n - 1) n)) by lia. cbn [andb].
    rewrite !bind_assoc. unfold bind at 1, py_mod at 1.
    destruct Hz as [-> | Hz]; [done|].
    destruct (int32 (shape0 a) =? 0); [done|]. cbn [ret].
    unfold bind at 1, py_mod at 1. by rewrite Hz.
Qed.

End Indices.

Lemma evaluator_index_witness :
  heap (store_of corner3) !! 1%positive = Some corner3 /\ valid corner3 /\
  0 < shape0 corner3 /\ 0 < shape1 corner3 /\
  @_ising_update example_platform 1%positive (-3) (-3) half (store_of corner3)
    = @_ising_update example_platform 1%positive 0 0 half (store_of corner3) /\
  @_ising_update example_platform 1%positive 3 0 half (store_of corner3) = None.
Proof.
  assert (0 < shape0 corner3) as HN by reflexivity.
  assert (0 < shape1 corner3) as HM by reflexivity.
  refine (conj eq_refl (conj valid_corner3 (conj HN (conj HM _)))).
  destruct (@evaluator_index example_platform 1%positive corner3 (-3) (-3) half
              (store_of corner3) eq_refl valid_corner3 HN HM) as [Hin _].
  destruct (@evaluator_index example_platform 1%positive corner3 3 0 half
              (store_of corner3) eq_refl valid_corner3 HN HM) as [_ Hout].
  split.
  - exact (proj1 (Hin ltac:(cbn; lia) ltac:(cbn; lia))).
  - apply Hout. right. left. cbn. lia.
Defined.

Lemma empty_lattice_witness :
  heap (store_of empty3) !! 1%positive = Some empty3 /\
  (shape0 empty3 = 0 \/ shape1 empty3 = 0) /\
  @ising_step example_platform 1%positive half (store_of empty3)
    = Some (1%positive, store_of empty3).
Proof.
  refine (conj eq_refl (conj (or_introl eq_refl) _)).
  exact (proj1 (@empty_lattice example_platform 1%positive empty3 half
                  (store_of empty3) eq_refl (or_introl eq_refl))).
Defined.

(** ** A flip turns the sign of the energy difference *)

Lemma neighbors_not_self N M n m :
  2 <= N -> 2 <= M -> 0 <= n < N -> 0 <= m < M -> (n, m) ∉ neighbors N M n m.
Proof.
  intros HN HM Hn Hm (di & dj & Hdi & Hdj & Hne & [= Ei Ej])%neighbors_elem.
  apply Hne.
  assert (forall d x k, 2 <= d -> -1 <= k <= 1 -> x = (x + k) mod d -> k = 0) as Hzero.
  { intros d x k Hd Hk Hx.
    pose proof (Z.div_mod (x + k) d ltac:(lia)) as Hq. rewrite <-Hx in Hq.
    assert ((x + k) `div` d = 0 \/ (x + k) `div` d <= -1 \/ 1 <= (x + k) `div` d)
      as [Hz|[Hz|Hz]] by lia; [rewrite Hz in Hq; lia|nia|nia]. }
  rewrite (Hzero N n di), (Hzero M m dj); [done|done|lia|done|done|lia|done].
Qed.

Lemma dE_of_flipped a n m :
  lattice a -> 2 <= shape0 a -> 2 <= shape1 a -> site a n m ->
  dE_of (flipped a n m) n m = - dE_of a n m.
Proof.
  intros Ha HN HM Hs.
  pose proof (lattice_flipped a n m Ha Hs) as Ha'.
  assert (site (flipped a n m) n m) as Hs' by exact Hs.
  destruct (dE_of_lattice a n m Ha Hs) as [-> _].
  destruct (dE_of_lattice (flipped a n m) n m Ha' Hs') as [-> _].
  rewrite (cell_flipped a n m Ha Hs).
  rewrite (stencil_sum_ext a (flipped a n m) n m); [lia|done..|].
  intros [i j] Hc. cbn [fst snd]. unfold flipped.
  apply cell_with_cell_ne; [done| |].
  - apply neighbors_elem in Hc as (di & dj & _ & _ & _ & [= -> ->]).
    apply mod_site; lia.
  - intros [= <- <-]. revert Hc. apply neighbors_not_self; [done..|apply Hs|apply Hs].
Qed.

Section Reversal.
Context `{Platform}.

(** On a lattice of spins with at least two rows and two columns, the
    unconditional flip of a site with [dE <= 0] leaves that site with the
    opposite energy difference: evaluated again right away it has
    [dE >= 0], and flips back without a draw only if [dE = 0]. *)
Theorem flip_negates_dE field a n m beta s :
  heap s !! field = Some a -> lattice a ->
  2 <= shape0 a -> 2 <= shape1 a -> site a n m ->
  exists dE,
    local_dE field n m s = Some (dE, s) /\
    (dE <= 0 ->
     exists s',
       _ising_update field n m beta s = Some (tt, s') /\
       local_dE field n m s' = Some (- dE, s') /\
       np_random s' = np_random s).
Proof.
  intros E Ha HN HM Hs. pose proof Ha as [Hv Hsp].
  exists (dE_of a n m). split; [by apply local_dE_run|]. intros Hle.
  exists (set_heap (<[field := flipped a n m]> (heap s)) s).
  split; [|split; [|done]].
  - rewrite (ising_update_run field a n m beta s E Hv Hs).
    unfold site_update, metropolis. rewrite E.
    by rewrite (proj2 (Z.leb_le _ _) Hle).
  - rewrite <-(dE_of_flipped a n m Ha HN HM Hs).
    apply local_dE_run; [cbn [set_heap heap]; apply lookup_insert_eq| |exact Hs].
    by apply valid_flipped.
Qed.

End Reversal.

Lemma flip_negates_dE_witness :
  heap (store_of corner3) !! 1%positive = Some corner3 /\ lattice corner3 /\
  2 <= shape0 corner3 /\ 2 <= shape1 corner3 /\ site corner3 0 0 /\
  local_dE 1%positive 0 0 (store_of corner3) = Some (-16, store_of corner3) /\
  exists s',
    @_ising_update example_platform 1%positive 0 0 half (store_of corner3)
      = Some (tt, s') /\
    local_dE 1%positive 0 0 s' = Some (16, s').
Proof.
  assert (2 <= shape0 corner3) as HN by (cbn; lia).
  assert (2 <= shape1 corner3) as HM by (cbn; lia).
  assert (site corner3 0 0) as Hsite by (unfold site; cbn; lia).
  refine (conj eq_refl (conj (conj valid_corner3 spins_corner3)
            (conj HN (conj HM (conj Hsite _))))).
  destruct (@flip_negates_dE example_platform 1%positive corner3 0 0 half
              (store_of corner3) eq_refl (conj valid_corner3 spins_corner3)
              HN HM Hsite) as (dE & HdE & Hle).
  assert (dE = -16) as ->.
  { assert (local_dE 1%positive 0 0 (store_of corner3)
            = Some (-16, store_of corner3)) as Hc by reflexivity.
    rewrite Hc in HdE. by injection HdE. }
  split; [exact HdE|].
  destruct (Hle ltac:(lia)) as (s' & Hrun & HdE' & _).
  exists s'. exact (conj Hrun HdE').
Defined.

(** ** How much of the random stream a step reads *)

Lemma length_grid {A B} (xs : list A) (ys : list B) :
  length (xs ≫= fun x : A => ys ≫= fun y : B => [(x, y)])
  = (length xs * length ys)%nat.
Proof.
  assert (forall x : A, length (ys ≫= fun y : B => [(x, y)]) = length ys) as Hrow.
  { intros x. induction ys as [|y ys IH]; [done|].
    cbn [mbind list_bind app length]. by rewrite IH. }
  induction xs as [|x xs IH]; [done|].
  cbn [mbind list_bind length]. by rewrite length_app, Hrow, IH.
Qed.

Lemma length_step_sites N M :
  length (step_sites N M) = (Z.to_nat N * Z.to_nat M)%nat.
Proof.
  assert (step_sites N M ≡ₚ row_major N M) as ->.
  { apply NoDup_Permutation; [apply step_sites_NoDup|apply row_major_NoDup|].
    intros [n m]. by rewrite step_sites_elem, row_major_elem. }
  unfold row_major. by rewrite length_grid, !length_seqZ.
Qed.

Section Draws.
Context `{Platform}.
Implicit Types (a : ndarray) (s : state) (field : loc) (r : rng spec_float).

Lemma metropolis_draws a n m beta r :
  samples (metropolis a n m beta r).2 = samples r /\
  (drawn (metropolis a n m beta r).2 = drawn r \/
   drawn (metropolis a n m beta r).2 = S (drawn r)).
Proof.
  unfold metropolis. destruct (dE_of a n m <=? 0); [by split; [|left]|].
  cbn [draw snd]. by split; [|right].
Qed.

Lemma lattice_sweep_draws beta sites a r :
  samples (lattice_sweep beta sites (a, r)).2 = samples r /\
  (drawn r <= drawn (lattice_sweep beta sites (a, r)).2 <= drawn r + length sites)%nat.
Proof.
  revert a r. induction sites as [|[n m] sites IH]; intros a r;
    [cbn; split; [done|lia]|].
  cbn [lattice_sweep foldl fst snd length].
  fold (lattice_sweep beta sites (metropolis a n m beta r)).
  destruct (metropolis_draws a n m beta r) as [Hs Hd].
  destruct (metropolis a n m beta r) as [a' r']. cbn [snd] in *.
  destruct (IH a' r') as [Hs' Hd']. split; [congruence|lia].
Qed.

Lemma cy_sweep_draws field beta sites s :
  samples (libc_rand (cy_sweep field beta sites s)) = samples (libc_rand s) /\
  (drawn (libc_rand s) <= drawn (libc_rand (cy_sweep field beta sites s))
     <= drawn (libc_rand s) + length sites)%nat.
Proof.
  revert s. induction sites as [|[n m] sites IH]; intros s;
    [cbn; split; [done|lia]|].
  cbn [cy_sweep foldl fst snd length].
  fold (cy_sweep field beta sites (cy_site_update field n m beta s)).
  destruct (IH (cy_site_update field n m beta s)) as [Hs' Hd'].
  assert (samples (libc_rand (cy_site_update field n m beta s)) = samples (libc_rand s) /\
          (drawn (libc_rand s) <= drawn (libc_rand (cy_site_update field n m beta s))
             <= S (drawn (libc_rand s)))%nat) as [Hs Hd].
  { unfold cy_site_update, cy_metropolis.
    destruct (heap s !! field) as [a|]; [|split; [done|lia]].
    destruct (SFleb _ _); [cbn; split; [done|lia]|]. cbn [draw].
    destruct (cy_accepts _ _ _); cbn; (split; [done|lia]). }
  split; [congruence|lia].
Qed.

(** One step reads at most one sample per site: [ising_step] advances the
    generator of [np.random] by between 0 and [N * M] draws and leaves the
    one of libc alone; [cy_ising_step] does the converse.  Neither changes
    the samples still to come. *)
Theorem step_draws field a beta s :
  heap s !! field = Some a -> valid a ->
  (exists s',
     ising_step field beta s = Some (field, s') /\
     libc_rand s' = libc_rand s /\
     samples (np_random s') = samples (np_random s) /\
     (drawn (np_random s) <= drawn (np_random s')
        <= drawn (np_random s) + Z.to_nat (shape0 a * shape1 a))%nat) /\
  (fits_int a ->
   exists l s',
     cy_ising_step field beta s = Some (l, s') /\
     np_random s' = np_random s /\
     samples (libc_rand s') = samples (libc_rand s) /\
     (drawn (libc_rand s) <= drawn (libc_rand s')
        <= drawn (libc_rand s) + Z.to_nat (shape0 a * shape1 a))%nat).
Proof.
  intros E Hv.
  assert (length (step_sites (shape0 a) (shape1 a)) = Z.to_nat (shape0 a * shape1 a))
    as Hlen.
  { rewrite length_step_sites. destruct Hv as (HN & HM & _). by rewrite Z2Nat.inj_mul. }
  split.
  - eexists. split; [by apply ising_step_state|].
    cbn [libc_rand np_random]. split; [done|].
    rewrite <-Hlen. apply lattice_sweep_draws.
  - intros Hf.
    destruct (cy_sweep_inv valid field beta (step_sites (shape0 a) (shape1 a)) a s)
      as (a' & Eh & Er & _);
      [by intros; apply valid_flipped|done|done|apply step_sites_Forall|].
    rewrite (cy_ising_step_run field a beta s E Hv Hf). unfold np_array.
    rewrite Eh, lookup_insert_eq. cbn [mbind option_bind].
    eexists _, _. split; [reflexivity|]. cbn [set_heap np_random libc_rand].
    split; [done|]. rewrite <-Hlen. apply cy_sweep_draws.
Qed.

Lemma metropolis_window a n m beta r1 r2 :
  drawn r1 = drawn r2 -> samples r1 (drawn r1) = samples r2 (drawn r2) ->
  (metropolis a n m beta r1).1 = (metropolis a n m beta r2).1 /\
  drawn (metropolis a n m beta r1).2 = drawn (metropolis a n m beta r2).2.
Proof.
  intros Hd Hs. unfold metropolis. destruct (dE_of a n m <=? 0); [done|].
  cbn [draw fst snd]. by rewrite Hs, Hd.
Qed.

Lemma lattice_sweep_window beta sites a r1 r2 :
  drawn r1 = drawn r2 ->
  (forall k, (drawn r1 <= k < drawn r1 + length sites)%nat ->
             samples r1 k = samples r2 k) ->
  (lattice_sweep beta sites (a, r1)).1 = (lattice_sweep beta sites (a, r2)).1 /\
  drawn (lattice_sweep beta sites (a, r1)).2 = drawn (lattice_sweep beta sites (a, r2)).2.
Proof.
  revert a r1 r2. induction sites as [|[n m] sites IH]; intros a r1 r2 Hd Hw; [done|].
  cbn [lattice_sweep foldl fst snd].
  fold (lattice_sweep beta sites (metropolis a n m beta r1)).
  fold (lattice_sweep beta sites (metropolis a n m beta r2)).
  destruct (metropolis_window a n m beta r1 r2 Hd) as [Ha Hd'].
  { rewrite <-Hd. apply Hw. cbn [length]. lia. }
  destruct (metropolis_draws a n m beta r1) as [Hs1 Hc1].
  destruct (metropolis_draws a n m beta r2) as [Hs2 _].
  destruct (metropolis a n m beta r1) as [a1 r1'], (metropolis a n m beta r2) as [a2 r2'].
  cbn [fst snd] in *. subst a2. apply IH; [done|].
  intros k Hk. rewrite Hs1, Hs2. apply Hw. cbn [length]. lia.
Qed.

Lemma lattice_run_window K beta a r1 r2 :
  drawn r1 = drawn r2 ->
  (forall k, (drawn r1 <= k < drawn r1 + K * (Z.to_nat (shape0 a) * Z.to_nat (shape1 a)))%nat ->
             samples r1 k = samples r2 k) ->
  (lattice_run K beta (a, r1)).1 = (lattice_run K beta (a, r2)).1 /\
  drawn (lattice_run K beta (a, r1)).2 = drawn (lattice_run K beta (a, r2)).2.
Proof.
  revert a r1 r2. induction K as [|K IH]; intros a r1 r2 Hd Hw; [done|].
  rewrite !lattice_run_S. cbn [fst].
  set (L := (Z.to_nat (shape0 a) * Z.to_nat (shape1 a))%nat) in *.
  pose proof (length_step_sites (shape0 a) (shape1 a)) as Hlen. fold L in Hlen.
  destruct (lattice_sweep_window beta (step_sites (shape0 a) (shape1 a)) a r1 r2 Hd)
    as [Ha Hd'].
  { intros k Hk. apply Hw. rewrite Hlen in Hk. lia. }
  destruct (lattice_sweep_draws beta (step_sites (shape0 a) (shape1 a)) a r1) as [Hs1 Hb1].
  destruct (lattice_sweep_draws beta (step_sites (shape0 a) (shape1 a)) a r2) as [Hs2 _].
  destruct (lattice_step_inv (fun _ => True) beta a r1) as (_ & E0 & E1); [done..|].
  destruct (lattice_sweep beta _ (a, r1)) as [a1 r1'],
           (lattice_sweep beta _ (a, r2)) as [a2 r2'].
  cbn [fst snd] in *. subst a2. apply IH; [done|].
  intros k Hk. rewrite Hs1, Hs2. apply Hw. rewrite E0, E1 in Hk. fold L in Hk.
  rewrite Hlen in Hb1. lia.
Qed.

(** A run of [K] steps reads the random stream only in the window of the
    next [K * N * M] samples: two runs from equal lattices whose generators
    stand at the same position and agree on that window end with equal
    lattices and with their generators at the same position, whatever the
    samples beyond the window are. *)
Theorem run_reads_window K field1 field2 a beta s1 s2 :
  heap s1 !! field1 = Some a -> heap s2 !! field2 = Some a -> valid a ->
  drawn (np_random s1) = drawn (np_random s2) ->
  (forall k, (drawn (np_random s1) <= k
              < drawn (np_random s1) + K * Z.to_nat (shape0 a * shape1 a))%nat ->
             samples (np_random s1) k = samples (np_random s2) k) ->
  exists s1' s2' a',
    ising_run K field1 beta s1 = Some (field1, s1') /\
    ising_run K field2 beta s2 = Some (field2, s2') /\
    heap s1' !! field1 = Some a' /\
    heap s2' !! field2 = Some a' /\
    drawn (np_random s1') = drawn (np_random s2').
Proof.
  intros E1 E2 Hv Hd Hw.
  destruct (lattice_run_window K beta a (np_random s1) (np_random s2) Hd) as [Ha Hd'].
  { intros k Hk. apply Hw. destruct Hv as (HN & HM & _). by rewrite Z2Nat.inj_mul. }
  eexists _, _, _. split; [by apply ising_run_state|].
  split; [by apply ising_run_state|].
  cbn [heap np_random]. rewrite !lookup_insert_eq, Ha. done.
Qed.

End Draws.

Lemma step_draws_witness :
  heap (store_of square2) !! 1%positive = Some square2 /\ valid square2 /\
  fits_int square2 /\
  exists s',
    @ising_step example_platform 1%positive half (store_of square2)
      = Some (1%positive, s') /\
    (drawn (np_random s') <= 4)%nat.
Proof.
  assert (valid square2) as Hv by (repeat split; cbn; lia).
  refine (conj eq_refl (conj Hv (conj (conj eq_refl eq_refl) _))).
  destruct (@step_draws example_platform 1%positive square2 half
              (store_of square2) eq_refl Hv) as [(s' & Hrun & _ & _ & Hd) _].
  exists s'. split; [exact Hrun|]. exact (proj2 Hd).
Defined.

Lemma run_reads_window_witness :
  let s2 := State {[ 2%positive := square2 ]} (Rng zeros_then 0) zerosZ in
  heap (store_of square2) !! 1%positive = Some square2 /\
  heap s2 !! 2%positive = Some square2 /\ valid square2 /\
  exists s1' s2' a',
    @ising_run example_platform 3 1%positive half (store_of square2)
      = Some (1%positive, s1') /\
    @ising_run example_platform 3 2%positive half s2 = Some (2%positive, s2') /\
    heap s1' !! 1%positive = Some a' /\ heap s2' !! 2%positive = Some a'.
Proof.
  intros s2.
  assert (valid square2) as Hv by (repeat split; cbn; lia).
  refine (conj eq_refl (conj eq_refl (conj Hv _))).
  destruct (@run_reads_window example_platform 3 1%positive 2%positive square2 half
              (store_of square2) s2 eq_refl eq_refl Hv eq_refl)
    as (s1' & s2' & a' & H1 & H2 & Ha1 & Ha2 & _).
  { intros k Hk. cbn in Hk. unfold s2, zeros_then. cbn [np_random samples store_of zeros].
    destruct (Nat.ltb_spec k 20); [done|lia]. }
  exists s1', s2', a'. exact (conj H1 (conj H2 (conj Ha1 Ha2))).
Defined.

(** ** The recorded sequence of snapshots *)

Lemma list_getitem_last {A} (xs : list A) (x : A) s :
  list_getitem (xs ++ [x]) (-1) s = Some (x, s).
Proof.
  unfold list_getitem. rewrite length_app. cbn [length].
  rewrite norm_index_mod by lia.
  replace ((-1) `mod` Z.of_nat (length xs + 1)) with (Z.of_nat (length xs)).
  - rewrite Nat2Z.id. rewrite lookup_app_r by (apply Nat.le_refl).
    by rewrite Nat.sub_diag.
  - apply (Z.mod_unique_pos _ _ (-1)); lia.
Qed.

Lemma copy_run field a s :
  heap s !! field = Some a ->
  copy field s = Some (fresh (dom (heap s)),
                       set_heap (<[fresh (dom (heap s)) := a]> (heap s)) s) /\
  heap s !! fresh (dom (heap s)) = None.
Proof.
  intros E. unfold copy. rewrite E. split; [done|].
  apply not_elem_of_dom, is_fresh.
Qed.

Section Sequence.
Context `{Platform}.
Implicit Types (a : ndarray) (s : state) (field : loc).

Lemma recorded_round s0 field a0 beta j images s :
  valid a0 -> recorded s0 field a0 beta j images s ->
  exists images' s',
    (let* last := list_getitem images (-1) in
     let* c := copy last in
     let* r := ising_step c beta in
     ret (images ++ [r])) s = Some (images', s') /\
    recorded s0 field a0 beta (S j) images' s'.
Proof.
  intros Hv0 (Hlen & Hfirst & Hnd & Hframes & Hsub & Hr & Hc).
  destruct (lattice_run_inv valid j beta a0 (np_random s0)) as (Hvj & E0 & E1);
    [by intros; apply valid_flipped|done|].
  destruct (lookup_lt_is_Some_2 images j) as [lj Hlj]; [lia|].
  assert (images = take j images ++ [lj]) as Hsplit.
  { rewrite <-(take_drop j images) at 1. f_equal.
    apply list_eq. intros [|i]; rewrite lookup_drop.
    - by rewrite Nat.add_0_r.
    - cbn. apply lookup_ge_None_2. lia. }
  pose proof (Hframes j lj Hlj) as Ej.
  set (aj := (lattice_run j beta (a0, np_random s0)).1) in *.
  destruct (copy_run lj aj s Ej) as [Hcopy Hfresh].
  set (c := fresh (dom (heap s))) in *.
  set (s1 := set_heap (<[c := aj]> (heap s)) s) in *.
  assert (heap s1 !! c = Some aj) as Ec by (cbn; apply lookup_insert_eq).
  pose proof (ising_step_state c aj beta s1 Ec Hvj) as Hstep.
  eexists _, _. split.
  { rewrite Hsplit at 1. erewrite bind_run by apply list_getitem_last.
    erewrite bind_run by exact Hcopy. erewrite bind_run by exact Hstep.
    reflexivity. }
  assert (lattice_run (S j) beta (a0, np_random s0)
          = lattice_sweep beta (step_sites (shape0 aj) (shape1 aj)) (aj, np_random s1))
    as Hnext.
  { unfold lattice_run at 1. rewrite Nat.iter_succ.
    fold (lattice_run j beta (a0, np_random s0)).
    unfold aj, s1. cbn [set_heap np_random]. rewrite Hr.
    by destruct (lattice_run j beta (a0, np_random s0)). }
  rewrite <-Hnext. unfold recorded. cbn [heap np_random libc_rand].
  assert (forall k l, images !! k = Some l -> l <> c) as Hne.
  { intros k l Hk ->. apply Hframes in Hk. congruence. }
  split; [rewrite length_app; cbn; lia|].
  split; [by apply lookup_app_l_Some|].
  split.
  { apply NoDup_app. split; [done|]. split; [|apply NoDup_singleton].
    intros l [k Hk]%list_elem_of_lookup ->%list_elem_of_singleton. by eapply Hne. }
  split.
  { intros k l Hk. unfold s1. cbn [set_heap heap]. rewrite insert_insert_eq.
    destruct (decide (k < length images)%nat) as [Hlt|Hge].
    - rewrite lookup_app_l in Hk by done.
      rewrite lookup_insert_ne by (apply not_eq_sym; by eapply Hne). by apply Hframes.
    - rewrite lookup_app_r in Hk by lia.
      destruct (k - length images)%nat as [|i] eqn:Ek; [|by destruct i].
      injection Hk as <-. rewrite lookup_insert_eq.
      by replace k with (S j) by lia. }
  split.
  { unfold s1. cbn [set_heap heap]. rewrite insert_insert_eq.
    etrans; [exact Hsub|]. by apply insert_subseteq. }
  done.
Qed.

Lemma recorded_loop s0 field a0 beta (xs : list Z) j images s :
  valid a0 -> recorded s0 field a0 beta j images s ->
  exists images' s',
    for_acc xs images (fun images i =>
      let* last := list_getitem images (-1) in
      let* c := copy last in
      let* r := ising_step c beta in
      ret (images ++ [r])) s = Some (images', s') /\
    recorded s0 field a0 beta (j + length xs) images' s'.
Proof.
  intros Hv0. revert j images s. induction xs as [|x xs IH]; intros j images s Hrec.
  - exists images, s. rewrite Nat.add_0_r. done.
  - destruct (recorded_round s0 field a0 beta j images s Hv0 Hrec)
      as (images1 & s1 & Hround & Hrec1).
    destruct (IH (S j) images1 s1 Hrec1) as (images' & s' & Hloop & Hrec').
    exists images', s'. cbn [for_acc length].
    rewrite (bind_run _ _ _ _ _ Hround). split; [exact Hloop|].
    by replace (j + S (length xs))%nat with (S j + length xs)%nat by lia.
Qed.

(** The recording cell [images.append(ising_step(images[-1].copy()))]
    yields [K + 1] pairwise distinct arrays, the first being the initial
    lattice; frame [k] holds exactly the lattice that [k] in-place steps
    from the initial store leave behind; the initial lattice and everything
    else the store held stay as they were. *)
Theorem ising_sequence_frames K field a beta s :
  heap s !! field = Some a -> valid a ->
  exists images s',
    ising_sequence K field beta s = Some (images, s') /\
    length images = S (Z.to_nat K) /\
    images !! 0%nat = Some field /\
    NoDup images /\
    heap s ⊆ heap s' /\
    libc_rand s' = libc_rand s /\
    (forall k l, images !! k = Some l ->
       exists sk,
         ising_run k field beta s = Some (field, sk) /\
         heap s' !! l = heap sk !! field) /\
    (exists sK,
       ising_run (Z.to_nat K) field beta s = Some (field, sK) /\
       np_random s' = np_random sK).
Proof.
  intros E Hv.
  assert (recorded s field a beta 0 [field] s) as Hrec.
  { unfold recorded. split; [done|]. split; [done|].
    split; [apply NoDup_singleton|]. split; [|done].
    intros [|k] l Hk; [|done]. by injection Hk as <-. }
  destruct (recorded_loop s field a beta (range 0 K) 0 [field] s Hv Hrec)
    as (images & s' & Hloop & Hlen & Hfirst & Hnd & Hframes & Hsub & Hr & Hc).
  unfold range in Hlen. rewrite length_seqZ, Z.sub_0_r in Hlen.
  unfold range in Hr. rewrite length_seqZ, Z.sub_0_r in Hr.
  exists images, s'. split; [exact Hloop|]. split; [exact Hlen|].
  split; [exact Hfirst|]. split; [exact Hnd|]. split; [exact Hsub|].
  split; [exact Hc|]. split.
  - intros k l Hk. eexists. split; [by apply ising_run_state|].
    cbn [heap]. rewrite lookup_insert_eq. by apply Hframes.
  - eexists. split; [by apply ising_run_state|]. by cbn [np_random].
Qed.

End Sequence.

Lemma ising_sequence_frames_witness :
  heap (store_of square2) !! 1%positive = Some square2 /\ valid square2 /\
  exists images s',
    @ising_sequence example_platform 2 1%positive half (store_of square2)
      = Some (images, s') /\
    length images = 3%nat /\ NoDup images /\
    heap s' !! 1%positive = Some square2.
Proof.
  assert (valid square2) as Hv by (repeat split; cbn; lia).
  refine (conj eq_refl (conj Hv _)).
  destruct (@ising_sequence_frames example_platform 2 1%positive square2 half
              (store_of square2) eq_refl Hv)
    as (images & s' & Hrun & Hlen & _ & Hnd & Hsub & _).
  exists images, s'. split; [exact Hrun|]. split; [exact Hlen|]. split; [exact Hnd|].
  exact (lookup_weaken (heap (store_of square2)) (heap s') 1%positive square2
           eq_refl Hsub).
Defined.

(** ** The recorded sequence with the Cython step *)

Section CythonSequence.
Context `{Platform}.
Implicit Types (a : ndarray) (s : state) (field : loc) (r : rng Z).

Lemma cy_sweep_state field beta sites a s :
  heap s !! field = Some a ->
  cy_sweep field beta sites s
  = State (<[field := (cy_lattice_sweep beta sites (a, libc_rand s)).1]> (heap s))
          (np_random s) (cy_lattice_sweep beta sites (a, libc_rand s)).2.
Proof.
  revert a s. induction sites as [|[n m] sites IH]; intros a s E.
  - cbn. rewrite insert_id by done. by destruct s.
  - cbn [cy_sweep cy_lattice_sweep foldl fst snd].
    fold (cy_sweep field beta sites (cy_site_update field n m beta s)).
    fold (cy_lattice_sweep beta sites (cy_metropolis a n m beta (libc_rand s))).
    assert (cy_site_update field n m beta s
            = State (<[field := (cy_metropolis a n m beta (libc_rand s)).1]> (heap s))
                    (np_random s) (cy_metropolis a n m beta (libc_rand s)).2) as ->.
    { unfold cy_site_update. rewrite E.
      by destruct (cy_metropolis a n m beta (libc_rand s)). }
    erewrite IH by (cbn [heap]; apply lookup_insert_eq).
    cbn [heap np_random libc_rand]. rewrite insert_insert_eq.
    by destruct (cy_metropolis a n m beta (libc_rand s)).
Qed.

Lemma cy_lattice_step_inv (Q : ndarray -> Prop) beta a r :
  (forall a n m, Q a -> site a n m -> Q (flipped a n m)) ->
  Q a ->
  Q (cy_lattice_sweep beta (step_sites (shape0 a) (shape1 a)) (a, r)).1 /\
  shape0 (cy_lattice_sweep beta (step_sites (shape0 a) (shape1 a)) (a, r)).1 = shape0 a /\
  shape1 (cy_lattice_sweep beta (step_sites (shape0 a) (shape1 a)) (a, r)).1 = shape1 a.
Proof.
  intros HQ Ha.
  set (s := State {[ 1%positive := a ]} zeros r).
  destruct (cy_sweep_inv Q 1%positive beta (step_sites (shape0 a) (shape1 a)) a s)
    as (a' & Eh & _ & Ha' & E0 & E1); [done|done|done|apply step_sites_Forall|].
  rewrite (cy_sweep_state 1%positive beta _ a s eq_refl) in Eh. cbn [heap] in Eh.
  assert ((cy_lattice_sweep beta (step_sites (shape0 a) (shape1 a)) (a, r)).1 = a') as ->.
  { apply (f_equal (fun h => h !! 1%positive)) in Eh.
    rewrite !lookup_insert_eq in Eh. by injection Eh. }
  done.
Qed.

Lemma cy_lattice_run_inv (Q : ndarray -> Prop) K beta a r :
  (forall a n m, Q a -> site a n m -> Q (flipped a n m)) ->
  Q a ->
  Q (cy_lattice_run K beta (a, r)).1 /\
  shape0 (cy_lattice_run K beta (a, r)).1 = shape0 a /\
  shape1 (cy_lattice_run K beta (a, r)).1 = shape1 a.
Proof.
  intros HQ Ha. induction K as [|K IH]; [done|].
  unfold cy_lattice_run. rewrite Nat.iter_succ. fold (cy_lattice_run K beta (a, r)).
  destruct IH as (HaK & E0 & E1).
  destruct (cy_lattice_run K beta (a, r)) as [aK rK]. cbn [fst snd] in *.
  destruct (cy_lattice_step_inv Q beta aK rK HQ HaK) as (? & ? & ?).
  split; [done|]. split; congruence.
Qed.

(** One Cython step: the sweep in place, then the copy. *)
Lemma cy_ising_step_state field a beta s :
  heap s !! field = Some a -> valid a -> fits_int a ->
  let ar := cy_lattice_sweep beta (step_sites (shape0 a) (shape1 a)) (a, libc_rand s) in
  let l := fresh (dom (<[field := ar.1]> (heap s))) in
  cy_ising_step field beta s
  = Some (l, State (<[l := ar.1]> (<[field := ar.1]> (heap s))) (np_random s) ar.2).
Proof.
  intros E Hv Hf. cbn zeta.
  rewrite (cy_ising_step_run field a beta s E Hv Hf).
  rewrite (cy_sweep_state field beta _ a s E). unfold np_array.
  cbn [heap]. by rewrite lookup_insert_eq.
Qed.

Lemma cy_ising_run_state K field a beta s :
  heap s !! field = Some a -> valid a -> fits_int a ->
  exists l s',
    cy_ising_run K field beta s = Some (l, s') /\
    heap s' !! l = Some (cy_lattice_run K beta (a, libc_rand s)).1 /\
    libc_rand s' = (cy_lattice_run K beta (a, libc_rand s)).2.
Proof.
  revert field a s. induction K as [|K IH]; intros field a s E Hv Hf.
  - by exists field, s.
  - cbn [cy_ising_run].
    rewrite (bind_run _ _ _ _ _ (cy_ising_step_state field a beta s E Hv Hf)).
    destruct (cy_lattice_step_inv valid beta a (libc_rand s)) as (Hv1 & E0 & E1);
      [by intros; apply valid_flipped|done|].
    set (ar := cy_lattice_sweep beta (step_sites (shape0 a) (shape1 a)) (a, libc_rand s)) in *.
    set (l1 := fresh (dom (<[field := ar.1]> (heap s)))).
    destruct (IH l1 ar.1
                (State (<[l1 := ar.1]> (<[field := ar.1]> (heap s))) (np_random s) ar.2))
      as (l & s' & Hrun & Hl & Hr).
    { cbn [heap]. apply lookup_insert_eq. }
    { exact Hv1. }
    { destruct Hf. split; congruence. }
    exists l, s'. split; [exact Hrun|].
    cbn [libc_rand] in Hl, Hr.
    assert (cy_lattice_run (S K) beta (a, libc_rand s) = cy_lattice_run K beta (ar.1, ar.2))
      as ->.
    { unfold cy_lattice_run. rewrite Nat.iter_succ_r. cbn [fst]. fold ar.
      by destruct ar. }
    done.
Qed.

Lemma cy_recorded_round s0 field a0 beta j images s :
  valid a0 -> fits_int a0 -> cy_recorded s0 field a0 beta j images s ->
  exists images' s',
    (let* last := list_getitem images (-1) in
     let* c := copy last in
     let* r := cy_ising_step c beta in
     ret (images ++ [r])) s = Some (images', s') /\
    cy_recorded s0 field a0 beta (S j) images' s'.
Proof.
  intros Hv0 Hf0 (Hlen & Hfirst & Hnd & Hframes & Hsub & Hr & Hc).
  destruct (cy_lattice_run_inv valid j beta a0 (libc_rand s0)) as (Hvj & E0 & E1);
    [by intros; apply valid_flipped|done|].
  destruct (lookup_lt_is_Some_2 images j) as [lj Hlj]; [lia|].
  assert (images = take j images ++ [lj]) as Hsplit.
  { rewrite <-(take_drop j images) at 1. f_equal.
    apply list_eq. intros [|i]; rewrite lookup_drop.
    - by rewrite Nat.add_0_r.
    - cbn. apply lookup_ge_None_2. lia. }
  pose proof (Hframes j lj Hlj) as Ej.
  set (aj := (cy_lattice_run j beta (a0, libc_rand s0)).1) in *.
  assert (fits_int aj) as Hfj by (destruct Hf0; split; congruence).
  destruct (copy_run lj aj s Ej) as [Hcopy Hfresh].
  set (c := fresh (dom (heap s))) in *.
  set (s1 := set_heap (<[c := aj]> (heap s)) s) in *.
  assert (heap s1 !! c = Some aj) as Ec by (cbn; apply lookup_insert_eq).
  pose proof (cy_ising_step_state c aj beta s1 Ec Hvj Hfj) as Hstep. cbn zeta in Hstep.
  set (ar := cy_lattice_sweep beta (step_sites (shape0 aj) (shape1 aj))
               (aj, libc_rand s1)) in *.
  set (l := fresh (dom (<[c := ar.1]> (heap s1)))) in *.
  assert (l ∉ dom (<[c := ar.1]> (heap s1))) as Hl by apply is_fresh.
  unfold s1 in Hl. cbn [set_heap heap] in Hl.
  rewrite insert_insert_eq, dom_insert_L in Hl.
  assert (l <> c /\ heap s !! l = None) as [Hlc Hls].
  { apply not_elem_of_union in Hl as [Hl1 Hl2].
    split; [by apply not_elem_of_singleton in Hl1|by apply not_elem_of_dom]. }
  eexists _, _. split.
  { rewrite Hsplit at 1. erewrite bind_run by apply list_getitem_last.
    erewrite bind_run by exact Hcopy. erewrite bind_run by exact Hstep.
    reflexivity. }
  assert (cy_lattice_run (S j) beta (a0, libc_rand s0) = ar) as Hnext.
  { unfold cy_lattice_run at 1. rewrite Nat.iter_succ.
    fold (cy_lattice_run j beta (a0, libc_rand s0)).
    unfold ar, aj, s1. cbn [set_heap libc_rand]. rewrite Hr.
    by destruct (cy_lattice_run j beta (a0, libc_rand s0)). }
  rewrite <-Hnext. unfold cy_recorded. cbn [heap np_random libc_rand].
  assert (forall k l', images !! k = Some l' -> l' <> c /\ l' <> l) as Hne.
  { intros k l' Hk. apply Hframes in Hk. split; intros ->; congruence. }
  unfold s1. cbn [set_heap heap np_random]. rewrite insert_insert_eq.
  split; [rewrite length_app; cbn; lia|].
  split; [by apply lookup_app_l_Some|].
  split.
  { apply NoDup_app. split; [done|]. split; [|apply NoDup_singleton].
    intros l' [k Hk]%list_elem_of_lookup ->%list_elem_of_singleton.
    by destruct (Hne k l Hk). }
  split.
  { intros k l' Hk.
    destruct (decide (k < length images)%nat) as [Hlt|Hge].
    - rewrite lookup_app_l in Hk by done. destruct (Hne k l' Hk).
      rewrite !lookup_insert_ne by done. by apply Hframes.
    - rewrite lookup_app_r in Hk by lia.
      destruct (k - length images)%nat as [|i] eqn:Ek; [|by destruct i].
      injection Hk as <-. rewrite lookup_insert_eq.
      by replace k with (S j) by lia. }
  split.
  { etrans; [exact Hsub|]. etrans; [apply (insert_subseteq _ c); exact Hfresh|].
    apply insert_subseteq. by rewrite lookup_insert_ne. }
  done.
Qed.

Lemma cy_recorded_loop s0 field a0 beta (xs : list Z) j images s :
  valid a0 -> fits_int a0 -> cy_recorded s0 field a0 beta j images s ->
  exists images' s',
    for_acc xs images (fun images i =>
      let* last := list_getitem images (-1) in
      let* c := copy last in
      let* r := cy_ising_step c beta in
      ret (images ++ [r])) s = Some (images', s') /\
    cy_recorded s0 field a0 beta (j + length xs) images' s'.
Proof.
  intros Hv0 Hf0. revert j images s. induction xs as [|x xs IH]; intros j images s Hrec.
  - exists images, s. rewrite Nat.add_0_r. done.
  - destruct (cy_recorded_round s0 field a0 beta j images s Hv0 Hf0 Hrec)
      as (images1 & s1 & Hround & Hrec1).
    destruct (IH (S j) images1 s1 Hrec1) as (images' & s' & Hloop & Hrec').
    exists images', s'. cbn [for_acc length].
    rewrite (bind_run _ _ _ _ _ Hround). split; [exact Hloop|].
    by replace (j + S (length xs))%nat with (S j + length xs)%nat by lia.
Qed.

(** The recording cell with [cy_ising_step] yields [K + 1] pairwise
    distinct arrays, the first being the initial lattice; frame [k] holds
    exactly the lattice a run of [k] Cython steps from the initial store
    returns; although the Cython step writes into the array it is given,
    the [copy()] in the cell keeps the initial lattice, every earlier frame
    and everything else the store held as they were. *)
Theorem cy_ising_sequence_frames K field a beta s :
  heap s !! field = Some a -> valid a -> fits_int a ->
  exists images s',
    cy_ising_sequence K field beta s = Some (images, s') /\
    length images = S (Z.to_nat K) /\
    images !! 0%nat = Some field /\
    NoDup images /\
    heap s ⊆ heap s' /\
    np_random s' = np_random s /\
    (forall k l, images !! k = Some l ->
       exists lk sk,
         cy_ising_run k field beta s = Some (lk, sk) /\
         heap s' !! l = heap sk !! lk).
Proof.
  intros E Hv Hf.
  assert (cy_recorded s field a beta 0 [field] s) as Hrec.
  { unfold cy_recorded. split; [done|]. split; [done|].
    split; [apply NoDup_singleton|]. split; [|done].
    intros [|k] l Hk; [|done]. by injection Hk as <-. }
  destruct (cy_recorded_loop s field a beta (range 0 K) 0 [field] s Hv Hf Hrec)
    as (images & s' & Hloop & Hlen & Hfirst & Hnd & Hframes & Hsub & Hr & Hc).
  unfold range in Hlen. rewrite length_seqZ, Z.sub_0_r in Hlen.
  exists images, s'. split; [exact Hloop|]. split; [exact Hlen|].
  split; [exact Hfirst|]. split; [exact Hnd|]. split; [exact Hsub|].
  split; [exact Hc|].
  intros k l Hk.
  destruct (cy_ising_run_state k field a beta s E Hv Hf) as (lk & sk & Hrun & Hlk & _).
  exists lk, sk. split; [exact Hrun|]. rewrite Hlk. by apply Hframes.
Qed.

End CythonSequence.

Lemma cy_ising_sequence_frames_witness :
  heap (store_of square2) !! 1%positive = Some square2 /\ valid square2 /\
  fits_int square2 /\
  exists images s',
    @cy_ising_sequence example_platform 2 1%positive half (store_of square2)
      = Some (images, s') /\
    length images = 3%nat /\ NoDup images /\
    heap s' !! 1%positive = Some square2.
Proof.
  assert (valid square2) as Hv by (repeat split; cbn; lia).
  assert (fits_int square2) as Hf by (split; reflexivity).
  refine (conj eq_refl (conj Hv (conj Hf _))).
  destruct (@cy_ising_sequence_frames example_platform 2 1%positive square2 half
              (store_of square2) eq_refl Hv Hf)
    as (images & s' & Hrun & Hlen & _ & Hnd & Hsub & _).
  exists images, s'. split; [exact Hrun|]. split; [exact Hlen|]. split; [exact Hnd|].
  exact (lookup_weaken (heap (store_of square2)) (heap s') 1%positive square2
           eq_refl Hsub).
Defined.

(** ** Display and the frame player *)

Lemma pixel_spin c : c = -1 \/ c = 1 -> pixel c = Some (255 * (c + 1) / 2).
Proof. by intros [-> | ->]. Qed.

Lemma mapM_pixel_spins (cs : list Z) :
  Forall (fun c => c = -1 \/ c = 1) cs ->
  mapM pixel cs = Some ((fun c => 255 * (c + 1) / 2) <$> cs).
Proof.
  intros Hcs. apply mapM_Some. induction Hcs as [|c cs Hc _ IH]; [constructor|].
  cbn [fmap list_fmap]. constructor; [by apply pixel_spin|exact IH].
Qed.

Lemma display_spin_field_run field a s :
  heap s !! field = Some a -> spins a ->
  display_spin_field field s
  = Some (Image (shape1 a) (shape0 a) ((fun c => 255 * (c + 1) / 2) <$> data a), s).
Proof.
  intros E Hsp. unfold display_spin_field. rewrite E. cbn [mbind option_bind].
  by rewrite (mapM_pixel_spins (data a) Hsp).
Qed.

Lemma decode_pixels (cs : list Z) :
  Forall (fun c => c = -1 \/ c = 1) cs ->
  (fun p => 2 * p / 255 - 1) <$> ((fun c => 255 * (c + 1) / 2) <$> cs) = cs.
Proof.
  induction 1 as [|c cs Hc _ IH]; [done|].
  cbn [fmap list_fmap]. rewrite IH. by destruct Hc as [-> | ->].
Qed.

(** [display_spin_field] of a lattice of spins reads the lattice without
    changing the store and returns an image as wide as the lattice has
    columns and as high as it has rows, whose pixel at a site is 0 where
    the spin is [-1] and 255 where it is [+1]. *)
Theorem display_spins field a s :
  heap s !! field = Some a -> valid a -> spins a ->
  exists img,
    display_spin_field field s = Some (img, s) /\
    width img = shape1 a /\ height img = shape0 a /\
    length (pixels img) = length (data a) /\
    (forall i j, site a i j ->
       exists p, pixels img !! offset a i j = Some p /\
                 (cell a i j = -1 -> p = 0) /\ (cell a i j = 1 -> p = 255)).
Proof.
  intros E Hv Hsp. eexists. split; [by apply display_spin_field_run|].
  cbn [width height pixels]. split; [done|]. split; [done|].
  split; [by rewrite length_fmap|].
  intros i j Hs. rewrite list_lookup_fmap, (lookup_cell a i j Hv Hs). cbn [fmap option_fmap option_map].
  eexists. split; [done|]. by split; intros ->.
Qed.

(** The image determines the lattice: mapping every pixel [p] of the image
    of a lattice of spins to [2 * p / 255 - 1], with the height as the
    number of rows and the width as the number of columns, gives the
    lattice back. *)
Theorem display_round_trip field a s img s' :
  heap s !! field = Some a -> spins a ->
  display_spin_field field s = Some (img, s') ->
  NDArray (height img) (width img) ((fun p => 2 * p / 255 - 1) <$> pixels img) = a.
Proof.
  intros E Hsp Hd. rewrite (display_spin_field_run field a s E Hsp) in Hd.
  injection Hd as <- _. cbn [width height pixels].
  rewrite (decode_pixels (data a) Hsp). by destruct a.
Qed.


Section Player.
Context `{Platform}.

Lemma ising_sequence_recorded K field a beta s :
  heap s !! field = Some a -> valid a ->
  exists images s',
    ising_sequence K field beta s = Some (images, s') /\
    recorded s field a beta (Z.to_nat K) images s'.
Proof.
  intros E Hv.
  assert (recorded s field a beta 0 [field] s) as Hrec.
  { unfold recorded. split; [done|]. split; [done|].
    split; [apply NoDup_singleton|]. split; [|done].
    intros [|k] l Hk; [|done]. by injection Hk as <-. }
  destruct (recorded_loop s field a beta (range 0 K) 0 [field] s Hv Hrec)
    as (images & s' & Hloop & Hrec').
  unfold range in Hrec'. rewrite length_seqZ, Z.sub_0_r in Hrec'.
  by exists images, s'.
Qed.

(** The player on a recorded run: from a lattice of spins, every frame the
    slider offers, from 0 to [len(images) - 1], is shown without error, and
    frame [k] is the picture of the lattice after [k] steps, with pixels 0
    and 255 only. *)
Theorem show_recorded K field a beta s :
  heap s !! field = Some a -> valid a -> spins a ->
  exists images s',
    ising_sequence K field beta s = Some (images, s') /\
    frame_range images = (0, Z.max K 0) /\
    forall frame,
      (frame_range images).1 <= frame <= (frame_range images).2 ->
      exists sk ak,
        ising_run (Z.to_nat frame) field beta s = Some (field, sk) /\
        heap sk !! field = Some ak /\
        _show images frame s'
          = Some (Image (shape1 a) (shape0 a) ((fun c => 255 * (c + 1) / 2) <$> data ak), s') /\
        Forall (fun p => p = 0 \/ p = 255) ((fun c => 255 * (c + 1) / 2) <$> data ak).
Proof.
  intros E Hv Hsp.
  destruct (ising_sequence_recorded K field a beta s E Hv)
    as (images & s' & Hrun & Hlen & _ & _ & Hframes & _).
  exists images, s'. split; [exact Hrun|].
  assert (frame_range images = (0, Z.max K 0)) as Hrange.
  { unfold frame_range. rewrite Hlen. f_equal. lia. }
  split; [exact Hrange|]. rewrite Hrange. cbn [fst snd]. intros frame Hf.
  destruct (lookup_lt_is_Some_2 images (Z.to_nat frame)) as [l Hl]; [lia|].
  pose proof (Hframes _ _ Hl) as El.
  destruct (lattice_run_inv lattice (Z.to_nat frame) beta a (np_random s))
    as ([Hvk Hspk] & E0 & E1); [by apply lattice_flipped|done|].
  eexists _, _. split; [by apply ising_run_state|].
  cbn [heap]. rewrite lookup_insert_eq. split; [done|]. split.
  - unfold _show, list_getitem. rewrite norm_index_site by lia. rewrite Hl.
    rewrite bind_ret, (display_spin_field_run l _ s' El Hspk). by rewrite E0, E1.
  - apply Forall_fmap. eapply Forall_impl; [exact Hspk|].
    intros c [-> | ->]; [by left | by right].
Qed.

End Player.

Lemma display_spins_witness :
  heap (store_of corner3) !! 1%positive = Some corner3 /\ valid corner3 /\
  spins corner3 /\
  exists img,
    display_spin_field 1%positive (store_of corner3) = Some (img, store_of corner3) /\
    width img = 3 /\ height img = 3 /\
    exists p, pixels img !! 0%nat = Some p /\ p = 0.
Proof.
  refine (conj eq_refl (conj valid_corner3 (conj spins_corner3 _))).
  destruct (display_spins 1%positive corner3 (store_of corner3)
              eq_refl valid_corner3 spins_corner3) as (img & Hd & Hw & Hh & _ & Hpx).
  exists img. refine (conj Hd (conj Hw (conj Hh _))).
  destruct (Hpx 0 0 ltac:(unfold site; cbn; lia)) as (p & Hp & Hneg & _).
  exists p. exact (conj Hp (Hneg eq_refl)).
Defined.

Lemma display_round_trip_witness :
  heap (store_of row4) !! 1%positive = Some row4 /\ spins row4 /\
  display_spin_field 1%positive (store_of row4)
    = Some (Image 4 1 [255; 0; 0; 255], store_of row4) /\
  NDArray 1 4 ((fun p => 2 * p / 255 - 1) <$> [255; 0; 0; 255]) = row4.
Proof.
  refine (conj eq_refl (conj spins_row4 (conj eq_refl _))).
  exact (display_round_trip 1%positive row4 (store_of row4)
           (Image 4 1 [255; 0; 0; 255]) (store_of row4) eq_refl spins_row4 eq_refl).
Defined.

Lemma show_recorded_witness :
  heap (store_of square2) !! 1%positive = Some square2 /\ valid square2 /\
  spins square2 /\
  exists images s',
    @ising_sequence example_platform 2 1%positive half (store_of square2)
      = Some (images, s') /\
    exists img, _show images 2 s' = Some (img, s').
Proof.
  assert (valid square2) as Hv by (repeat split; cbn; lia).
  assert (spins square2) as Hsp by (unfold spins; cbn; repeat constructor; lia).
  refine (conj eq_refl (conj Hv (conj Hsp _))).
  destruct (@show_recorded example_platform 2 1%positive square2 half
              (store_of square2) eq_refl Hv Hsp)
    as (images & s' & Hrun & Hrange & Hshow).
  exists images, s'. split; [exact Hrun|].
  destruct (Hshow 2) as (sk & ak & _ & _ & Hs & _).
  { rewrite Hrange. cbn. lia. }
  eexists. exact Hs.
Defined.

(** ** The symmetry under reversal of all spins *)

Lemma cell_negated a i j : cell (negated a) i j = - cell a i j.
Proof.
  unfold cell, negated, offset. cbn [data shape1]. rewrite list_lookup_fmap.
  by destruct (data a !! _).
Qed.

Lemma lattice_negated a : lattice a -> lattice (negated a).
Proof.
  intros [(HN & HM & Hlen) Hsp]. split.
  - unfold valid, negated. cbn. by rewrite length_fmap.
  - unfold spins, negated. cbn. apply Forall_fmap. eapply Forall_impl; [exact Hsp|].
    intros c [-> | ->]; [by right | by left].
Qed.

Lemma stencil_sum_negated a n m : stencil_sum (negated a) n m = - stencil_sum a n m.
Proof.
  rewrite !stencil_sum_neighbors. unfold neighbors, neighbor_offsets.
  cbn [negated shape0 shape1 fmap list_fmap sumZ foldr fst snd].
  rewrite !cell_negated. lia.
Qed.

Lemma dE_of_negated a n m :
  lattice a -> site a n m -> dE_of (negated a) n m = dE_of a n m.
Proof.
  intros Ha Hs.
  destruct (dE_of_lattice a n m Ha Hs) as [-> _].
  destruct (dE_of_lattice (negated a) n m (lattice_negated a Ha) Hs) as [-> _].
  rewrite cell_negated, stencil_sum_negated. lia.
Qed.

Lemma flipped_negated a n m :
  lattice a -> site a n m -> flipped (negated a) n m = negated (flipped a n m).
Proof.
  intros Ha Hs. unfold flipped, with_cell, negated, offset. cbn [shape0 shape1 data].
  f_equal. rewrite list_fmap_insert. f_equal.
  fold (offset a n m). fold (negated a).
  rewrite cell_negated. by destruct (cell_spin a n m Ha Hs) as [-> | ->].
Qed.

Section Symmetry.
Context `{Platform}.

Lemma metropolis_negated a n m beta r :
  lattice a -> site a n m ->
  metropolis (negated a) n m beta r
  = (negated (metropolis a n m beta r).1, (metropolis a n m beta r).2).
Proof.
  intros Ha Hs. unfold metropolis. rewrite (dE_of_negated a n m Ha Hs).
  destruct (dE_of a n m <=? 0); cbn [fst snd]; [by rewrite flipped_negated|].
  cbn [draw]. destruct (accepts _ _ _); cbn [fst snd]; [by rewrite flipped_negated|done].
Qed.

Lemma lattice_sweep_negated beta N M sites a r :
  lattice a -> shape0 a = N -> shape1 a = M ->
  Forall (fun p => 0 <= p.1 < N /\ 0 <= p.2 < M) sites ->
  lattice_sweep beta sites (negated a, r)
  = (negated (lattice_sweep beta sites (a, r)).1, (lattice_sweep beta sites (a, r)).2).
Proof.
  intros Ha E0 E1 Hsites. revert a r Ha E0 E1.
  induction Hsites as [|[n m] sites Hp Hrest IH]; intros a r Ha E0 E1; [done|].
  cbn [lattice_sweep foldl fst snd].
  fold (lattice_sweep beta sites (metropolis (negated a) n m beta r)).
  fold (lattice_sweep beta sites (metropolis a n m beta r)).
  assert (site a n m) as Hs by (unfold site; cbn [fst snd] in Hp; lia).
  rewrite (metropolis_negated a n m beta r Ha Hs).
  pose proof (metropolis_cases a n m beta r) as Hcases.
  destruct (metropolis_shape a n m beta r) as [E0' E1'].
  assert (lattice (metropolis a n m beta r).1) as Ha'.
  { destruct Hcases as [-> | ->]; [done|by apply lattice_flipped]. }
  destruct (metropolis a n m beta r) as [a' r']. cbn [fst snd] in *.
  apply IH; [done|congruence..].
Qed.

Lemma lattice_run_negated K beta a r :
  lattice a ->
  lattice_run K beta (negated a, r)
  = (negated (lattice_run K beta (a, r)).1, (lattice_run K beta (a, r)).2).
Proof.
  revert a r. induction K as [|K IH]; intros a r Ha; [done|].
  rewrite !lattice_run_S. cbn [fst negated shape0 shape1].
  rewrite (lattice_sweep_negated beta (shape0 a) (shape1 a) _ a r Ha eq_refl eq_refl
             (step_sites_Forall _ _)).
  destruct (lattice_step_inv lattice beta a r) as (Ha' & _);
    [by apply lattice_flipped|done|].
  destruct (lattice_sweep beta _ (a, r)) as [a' r']. cbn [fst snd] in *.
  by apply IH.
Qed.

(** Reversing every spin commutes with the kernel: runs of [K] steps from
    a lattice of spins and from its negation, on the same random stream,
    end in a lattice and its negation, having drawn the same samples. *)
Theorem spin_reversal_symmetry K field1 field2 a beta s1 s2 :
  heap s1 !! field1 = Some a -> heap s2 !! field2 = Some (negated a) ->
  valid a -> spins a -> np_random s1 = np_random s2 ->
  exists s1' s2' a',
    ising_run K field1 beta s1 = Some (field1, s1') /\
    ising_run K field2 beta s2 = Some (field2, s2') /\
    heap s1' !! field1 = Some a' /\
    heap s2' !! field2 = Some (negated a') /\
    np_random s1' = np_random s2'.
Proof.
  intros E1 E2 Hv Hsp Hr.
  pose proof (lattice_negated a (conj Hv Hsp)) as [Hv' _].
  eexists _, _, _. split; [by apply ising_run_state|].
  split; [by apply ising_run_state|].
  cbn [heap np_random]. rewrite !lookup_insert_eq, <-Hr.
  by rewrite (lattice_run_negated K beta a (np_random s1) (conj Hv Hsp)).
Qed.

End Symmetry.

Lemma spin_reversal_symmetry_witness :
  let s2 := State {[ 2%positive := negated square2 ]} zeros zerosZ in
  heap (store_of square2) !! 1%positive = Some square2 /\
  heap s2 !! 2%positive = Some (negated square2) /\
  valid square2 /\ spins square2 /\
  exists s1' s2' a',
    @ising_run example_platform 2 1%positive half (store_of square2)
      = Some (1%positive, s1') /\
    @ising_run example_platform 2 2%positive half s2 = Some (2%positive, s2') /\
    heap s1' !! 1%positive = Some a' /\
    heap s2' !! 2%positive = Some (negated a').
Proof.
  intros s2.
  assert (valid square2) as Hv by (repeat split; cbn; lia).
  assert (spins square2) as Hsp by (unfold spins; cbn; repeat constructor; lia).
  refine (conj eq_refl (conj eq_refl (conj Hv (conj Hsp _)))).
  destruct (@spin_reversal_symmetry example_platform 2 1%positive 2%positive square2
              half (store_of square2) s2 eq_refl eq_refl Hv Hsp eq_refl)
    as (s1' & s2' & a' & H1 & H2 & Ha1 & Ha2 & _).
  exists s1', s2', a'. exact (conj H1 (conj H2 (conj Ha1 Ha2))).
Defined.

